(** * JGRpp fragments: rail tile accessors, road vehicle depot test, Randomizer

    A shallow embedding of [rail_map.h], [roadveh.h] and [random_func.cpp]
    together with the properties stated about them.

    Conventions.
    - A C integer of width [w] is a [Z]; every operation whose C result is
      truncated to [w] bits carries its wrap-around explicitly ([u8], [u32],
      [u64]).
    - A C [enum] is an integer: the enumerators are named [Z] constants.
    - [assert] is modelled with assertions enabled: a failed assertion ends
      the call with [AssertFail] and produces no value.
    - The global tile array [_m] is a [list Tile] indexed by [TileIndex];
      indexing past its end is undefined in C and is reported as [Undef]. *)

From Stdlib Require Import ZArith Lia List Bool String.
From stdpp Require Import base list.

Local Open Scope Z_scope.

(** ** Fixed-width integers and the bit macros *)

Module Bits.

Definition wrap (w x : Z) : Z := x mod 2 ^ w.

Definition u8  (x : Z) : Z := wrap 8 x.
Definition u32 (x : Z) : Z := wrap 32 x.
Definition u64 (x : Z) : Z := wrap 64 x.

(** [std::rotr] on a [uint32_t]: the shift count is reduced modulo the
    width and a zero count returns the operand. *)
Definition rotr32 (x s : Z) : Z :=
  let r := s mod 32 in
  if r =? 0 then x
  else Z.lor (Z.shiftr x r) (u32 (Z.shiftl x (32 - r))).

(** Modelled from the spec: the bit extraction macro [GB(x, s, n)]; the
    header that defines it is not among the sources. It reads the [n] bits
    of [x] that start at bit [s]. *)
Definition GB (x s n : Z) : Z := Z.land (Z.shiftr x s) (Z.ones n).

(** Modelled from the spec: the bit insertion macro [SB(x, s, n, d)]; the
    header that defines it is not among the sources. It replaces the [n]
    bits of [x] that start at bit [s] by the bits of [d]. The spec speaks of
    values within the field's width only; for such a value the result is the
    plain shift-and-or below ([SB_shift_or]). What the macro does with a
    wider value neither the sources nor the spec say: the model drops the
    excess bits, and the properties of the setters that look outside the
    written field take the value inside the field, where the choice makes
    no difference. The value is the new content of [x]; the caller stores it
    back at the width of the field it names. *)
Definition SB (x s n d : Z) : Z :=
  Z.lor (Z.land x (Z.lnot (Z.shiftl (Z.ones n) s)))
        (Z.shiftl (Z.land d (Z.ones n)) s).

(** The insertion written as a plain shift-and-or of the unmasked value;
    [SB_shift_or] shows it agrees with [SB] on every value that fits the
    field. *)
Definition SB_shift_or_form (x s n d : Z) : Z :=
  Z.lor (Z.land x (Z.lnot (Z.shiftl (Z.ones n) s))) (Z.shiftl d s).

(** Modelled from the spec: the macro [HASBIT(x, y)] of the same missing
    header, the test of the single bit [y] of [x]. *)
Definition HASBIT (x y : Z) : bool := negb (Z.land x (Z.shiftl 1 y) =? 0).

(** Modelled from the spec: the macro [SETBIT(x, y)] of the same missing
    header; the value is [x] with bit [y] set. *)
Definition SETBIT (x y : Z) : Z := Z.lor x (Z.shiftl 1 y).

(** Modelled from the spec: the macro [CLRBIT(x, y)] of the same missing
    header; the value is [x] with bit [y] cleared. *)
Definition CLRBIT (x y : Z) : Z := Z.land x (Z.lnot (Z.shiftl 1 y)).

End Bits.

Import Bits.

(** ** Calls that may fail an assertion *)

Inductive result (A : Type) : Type :=
| Ok (a : A)
| AssertFail
| Undef.

Arguments Ok {A} a.
Arguments AssertFail {A}.
Arguments Undef {A}.

#[global] Instance result_ret : MRet result := fun A a => Ok a.

#[global] Instance result_bind : MBind result := fun A B f r =>
  match r with
  | Ok a => f a
  | AssertFail => AssertFail
  | Undef => Undef
  end.

#[global] Instance result_fmap : FMap result := fun A B f r =>
  match r with
  | Ok a => Ok (f a)
  | AssertFail => AssertFail
  | Undef => Undef
  end.

(** [assert(c)] *)
Definition assert (c : bool) : result unit :=
  if c then Ok tt else AssertFail.

Definition is_Ok {A} (r : result A) : Prop := exists a, r = Ok a.

(** ** Rail tiles ([rail_map.h]) *)

Module RailMap.

(** Modelled from the spec: the per-tile record of the map array. Its
    declaration is not among the sources; the fields are the ones the
    accessors name ([m2] is 16 bits wide, the others are bytes), next to the
    type/height and owner bytes that the tile constructors set through
    [SetTileType] and [SetTileOwner]. *)
Record Tile : Type := mkTile {
  type_height : Z;
  m1 : Z;
  m2 : Z;
  m3 : Z;
  m4 : Z;
  m5 : Z
}.

Definition TileIndex : Type := nat.

(** The global [_m]. *)
Definition Map : Type := list Tile.

(** What [tile.h] provides and the sources do not show: the tile classes
    and the test of a tile's class. *)
Class TileHeader : Type := {
  TileType : Type;
  MP_RAILWAY : TileType;
  IsTileType : Map -> TileIndex -> TileType -> bool
}.

(** A tile header for the worked examples: the class of a tile is the high
    nibble of [type_height], and railway tiles are class 1. *)
Definition example_header : TileHeader :=
  {| TileType := Z;
     MP_RAILWAY := 1;
     IsTileType := fun m t ty =>
       match m !! t with
       | Some x => GB (type_height x) 4 4 =? ty
       | None => false
       end |}.

(** [_m[t]] *)
Definition tile_at (m : Map) (t : TileIndex) : result Tile :=
  match m !! t with
  | Some x => Ok x
  | None => Undef
  end.

(** [_m[t].f = v] for the three bytes that have setters. *)
Definition with_m3 (x : Tile) (v : Z) : Tile :=
  {| type_height := type_height x; m1 := m1 x; m2 := m2 x;
     m3 := u8 v; m4 := m4 x; m5 := m5 x |}.

Definition with_m4 (x : Tile) (v : Z) : Tile :=
  {| type_height := type_height x; m1 := m1 x; m2 := m2 x;
     m3 := m3 x; m4 := u8 v; m5 := m5 x |}.

Definition with_m5 (x : Tile) (v : Z) : Tile :=
  {| type_height := type_height x; m1 := m1 x; m2 := m2 x;
     m3 := m3 x; m4 := m4 x; m5 := u8 v |}.

Definition store (m : Map) (t : TileIndex) (x : Tile) : Map := <[t := x]> m.

(** [enum RailTileType] *)
Definition RAIL_TYPE_NORMAL         : Z := 0x0.
Definition RAIL_TYPE_SIGNALS        : Z := 0x40.
Definition RAIL_TYPE_UNUSED         : Z := 0x80.
Definition RAIL_TYPE_DEPOT_WAYPOINT : Z := 0xC0.
Definition RAIL_TILE_TYPE_MASK      : Z := 0xC0.

(** [enum RailTileSubtypes] *)
Definition RAIL_SUBTYPE_DEPOT    : Z := 0x00.
Definition RAIL_SUBTYPE_WAYPOINT : Z := 0x04.
Definition RAIL_SUBTYPE_MASK     : Z := 0x3C.

(** [enum RailTypes] *)
Definition RAILTYPE_RAIL     : Z := 0.
Definition RAILTYPE_ELECTRIC : Z := 1.
Definition RAILTYPE_MONO     : Z := 2.
Definition RAILTYPE_MAGLEV   : Z := 3.
Definition RAILTYPE_END      : Z := 4.
Definition INVALID_RAILTYPE  : Z := 0xFF.

(** [enum Track] *)
Definition TRACK_X     : Z := 0.
Definition TRACK_Y     : Z := 1.
Definition TRACK_UPPER : Z := 2.
Definition TRACK_LOWER : Z := 3.
Definition TRACK_LEFT  : Z := 4.
Definition TRACK_RIGHT : Z := 5.
Definition TRACK_END   : Z := 6.
Definition INVALID_TRACK : Z := 0xFF.

(** [enum TrackBits] *)
Definition TRACK_BIT_X     : Z := Z.shiftl 1 TRACK_X.
Definition TRACK_BIT_Y     : Z := Z.shiftl 1 TRACK_Y.
Definition TRACK_BIT_UPPER : Z := Z.shiftl 1 TRACK_UPPER.
Definition TRACK_BIT_LOWER : Z := Z.shiftl 1 TRACK_LOWER.
Definition TRACK_BIT_LEFT  : Z := Z.shiftl 1 TRACK_LEFT.
Definition TRACK_BIT_RIGHT : Z := Z.shiftl 1 TRACK_RIGHT.
Definition TRACK_BIT_CROSS : Z := Z.lor TRACK_BIT_X TRACK_BIT_Y.
Definition TRACK_BIT_HORZ  : Z := Z.lor TRACK_BIT_UPPER TRACK_BIT_LOWER.
Definition TRACK_BIT_VERT  : Z := Z.lor TRACK_BIT_LEFT TRACK_BIT_RIGHT.
Definition TRACK_BIT_3WAY_NE : Z :=
  Z.lor (Z.lor TRACK_BIT_X TRACK_BIT_UPPER) TRACK_BIT_RIGHT.
Definition TRACK_BIT_3WAY_SE : Z :=
  Z.lor (Z.lor TRACK_BIT_Y TRACK_BIT_LOWER) TRACK_BIT_RIGHT.
Definition TRACK_BIT_3WAY_SW : Z :=
  Z.lor (Z.lor TRACK_BIT_X TRACK_BIT_LOWER) TRACK_BIT_LEFT.
Definition TRACK_BIT_3WAY_NW : Z :=
  Z.lor (Z.lor TRACK_BIT_Y TRACK_BIT_UPPER) TRACK_BIT_LEFT.
Definition TRACK_BIT_ALL   : Z :=
  Z.lor (Z.lor TRACK_BIT_CROSS TRACK_BIT_HORZ) TRACK_BIT_VERT.
Definition TRACK_BIT_MASK  : Z := 0x3F.

(** [enum SignalType] *)
Definition SIGTYPE_NORMAL : Z := 0.
Definition SIGTYPE_ENTRY  : Z := 1.
Definition SIGTYPE_EXIT   : Z := 2.
Definition SIGTYPE_COMBO  : Z := 3.

(** [enum SignalVariant] *)
Definition SIG_ELECTRIC  : Z := 0.
Definition SIG_SEMAPHORE : Z := 1.

Section Accessors.
Context `{TH : TileHeader}.

Definition GetRailTileType (m : Map) (t : TileIndex) : result Z :=
  _ ← assert (IsTileType m t MP_RAILWAY);
  x ← tile_at m t;
  Ok (Z.land (m5 x) RAIL_TILE_TYPE_MASK).

Definition GetRailType (m : Map) (t : TileIndex) : result Z :=
  x ← tile_at m t; Ok (GB (m3 x) 0 4).

Definition GetRailTypeCrossing (m : Map) (t : TileIndex) : result Z :=
  x ← tile_at m t; Ok (GB (m4 x) 0 4).

Definition GetRailTypeOnBridge (m : Map) (t : TileIndex) : result Z :=
  x ← tile_at m t; Ok (GB (m3 x) 4 4).

Definition SetRailType (m : Map) (t : TileIndex) (r : Z) : result Map :=
  x ← tile_at m t; Ok (store m t (with_m3 x (SB (m3 x) 0 4 r))).

Definition SetRailTypeCrossing (m : Map) (t : TileIndex) (r : Z) : result Map :=
  x ← tile_at m t; Ok (store m t (with_m4 x (SB (m4 x) 0 4 r))).

Definition SetRailTypeOnBridge (m : Map) (t : TileIndex) (r : Z) : result Map :=
  x ← tile_at m t; Ok (store m t (with_m3 x (SB (m3 x) 4 4 r))).

Definition GetTrackBits (m : Map) (tile : TileIndex) : result Z :=
  x ← tile_at m tile; Ok (GB (m5 x) 0 6).

Definition SetTrackBits (m : Map) (t : TileIndex) (b : Z) : result Map :=
  x ← tile_at m t; Ok (store m t (with_m5 x (SB (m5 x) 0 6 b))).

Definition GetRailDepotDirection (m : Map) (t : TileIndex) : result Z :=
  x ← tile_at m t; Ok (GB (m5 x) 0 2).

Definition GetRailWaypointTrack (m : Map) (t : TileIndex) : result Z :=
  x ← tile_at m t; Ok (if HASBIT (m5 x) 0 then TRACK_Y else TRACK_X).

Definition GetRailWaypointBits (m : Map) (t : TileIndex) : result Z :=
  x ← tile_at m t;
  Ok (if negb (Z.land (m5 x) 1 =? 0) then TRACK_BIT_Y else TRACK_BIT_X).

Definition SetCustomWaypointSprite (m : Map) (t : TileIndex) : result Map :=
  x ← tile_at m t; Ok (store m t (with_m3 x (SETBIT (m3 x) 4))).

Definition ClearCustomWaypointSprite (m : Map) (t : TileIndex) : result Map :=
  x ← tile_at m t; Ok (store m t (with_m3 x (CLRBIT (m3 x) 4))).

Definition GetSignalType (m : Map) (t : TileIndex) : result Z :=
  ty ← GetRailTileType m t;
  _ ← assert (ty =? RAIL_TYPE_SIGNALS);
  x ← tile_at m t;
  Ok (GB (m4 x) 0 2).

Definition SetSignalType (m : Map) (t : TileIndex) (s : Z) : result Map :=
  ty ← GetRailTileType m t;
  _ ← assert (ty =? RAIL_TYPE_SIGNALS);
  x ← tile_at m t;
  Ok (store m t (with_m4 x (SB (m4 x) 0 2 s))).

Definition GetSignalVariant (m : Map) (t : TileIndex) : result Z :=
  x ← tile_at m t; Ok (GB (m4 x) 2 1).

Definition SetSignalVariant (m : Map) (t : TileIndex) (v : Z) : result Map :=
  x ← tile_at m t; Ok (store m t (with_m4 x (SB (m4 x) 2 1 v))).

End Accessors.

(** The six setters of rail type, track bits and signal fields, with the
    byte and the bit range ([start], [width]) each one passes to [SB]. *)
Inductive Setter : Type :=
| S_RailType | S_RailTypeCrossing | S_RailTypeOnBridge
| S_TrackBits | S_SignalType | S_SignalVariant.

Inductive Field : Type := F_m3 | F_m4 | F_m5.

Definition field (f : Field) (x : Tile) : Z :=
  match f with F_m3 => m3 x | F_m4 => m4 x | F_m5 => m5 x end.

Definition setter_field (s : Setter) : Field :=
  match s with
  | S_RailType | S_RailTypeOnBridge => F_m3
  | S_RailTypeCrossing | S_SignalType | S_SignalVariant => F_m4
  | S_TrackBits => F_m5
  end.

Definition setter_range (s : Setter) : Z * Z :=
  match s with
  | S_RailType | S_RailTypeCrossing => (0, 4)
  | S_RailTypeOnBridge => (4, 4)
  | S_TrackBits => (0, 6)
  | S_SignalType => (0, 2)
  | S_SignalVariant => (2, 1)
  end.

Definition run_setter `{TH : TileHeader}
    (s : Setter) (m : Map) (t : TileIndex) (v : Z) : result Map :=
  match s with
  | S_RailType => SetRailType m t v
  | S_RailTypeCrossing => SetRailTypeCrossing m t v
  | S_RailTypeOnBridge => SetRailTypeOnBridge m t v
  | S_TrackBits => SetTrackBits m t v
  | S_SignalType => SetSignalType m t v
  | S_SignalVariant => SetSignalVariant m t v
  end.

(** The fields of a tile other than [f] are the same in [x] and [y]. *)
Definition same_except (f : Field) (x y : Tile) : Prop :=
  type_height y = type_height x /\ m1 y = m1 x /\ m2 y = m2 x /\
  (f <> F_m3 -> m3 y = m3 x) /\
  (f <> F_m4 -> m4 y = m4 x) /\
  (f <> F_m5 -> m5 y = m5 x).

(** *** The rest of the header: getters by name and the tile constructors *)

(** The getters that return a bit field as it is stored, with the byte and
    the bit range ([start], [width]) each one passes to [GB]. *)
Inductive Getter : Type :=
| G_RailType | G_RailTypeCrossing | G_RailTypeOnBridge
| G_TrackBits | G_RailDepotDirection | G_SignalVariant.

Definition getter_field (g : Getter) : Field :=
  match g with
  | G_RailType | G_RailTypeOnBridge => F_m3
  | G_RailTypeCrossing | G_SignalVariant => F_m4
  | G_TrackBits | G_RailDepotDirection => F_m5
  end.

Definition getter_range (g : Getter) : Z * Z :=
  match g with
  | G_RailType | G_RailTypeCrossing => (0, 4)
  | G_RailTypeOnBridge => (4, 4)
  | G_TrackBits => (0, 6)
  | G_RailDepotDirection => (0, 2)
  | G_SignalVariant => (2, 1)
  end.

Definition run_getter (g : Getter) (m : Map) (t : TileIndex) : result Z :=
  match g with
  | G_RailType => GetRailType m t
  | G_RailTypeCrossing => GetRailTypeCrossing m t
  | G_RailTypeOnBridge => GetRailTypeOnBridge m t
  | G_TrackBits => GetTrackBits m t
  | G_RailDepotDirection => GetRailDepotDirection m t
  | G_SignalVariant => GetSignalVariant m t
  end.

(** The getter that reads back what a setter without assertion wrote. *)
Definition getter_of (s : Setter) : option Getter :=
  match s with
  | S_RailType => Some G_RailType
  | S_RailTypeCrossing => Some G_RailTypeCrossing
  | S_RailTypeOnBridge => Some G_RailTypeOnBridge
  | S_TrackBits => Some G_TrackBits
  | S_SignalType => None
  | S_SignalVariant => Some G_SignalVariant
  end.

#[global] Instance Field_eq_dec : EqDecision Field.
Proof. solve_decision. Defined.


(** Two setters that cannot meet. *)
Definition setters_apart (s1 s2 : Setter) : Prop :=
  setter_field s1 <> setter_field s2 \/
  fst (setter_range s1) + snd (setter_range s1) <= fst (setter_range s2) \/
  fst (setter_range s2) + snd (setter_range s2) <= fst (setter_range s1).

Definition u16 (x : Z) : Z := wrap 16 x.

(** [_m[t].m2 = v]; the field is 16 bits wide. *)
Definition with_m2 (x : Tile) (v : Z) : Tile :=
  {| type_height := type_height x; m1 := m1 x; m2 := u16 v;
     m3 := m3 x; m4 := m4 x; m5 := m5 x |}.

(** The plain assignments [_m[t].f = v] of the tile constructors. *)
Definition assign_m2 (m : Map) (t : TileIndex) (v : Z) : result Map :=
  x ← tile_at m t; Ok (store m t (with_m2 x v)).

Definition assign_m3 (m : Map) (t : TileIndex) (v : Z) : result Map :=
  x ← tile_at m t; Ok (store m t (with_m3 x v)).

Definition assign_m4 (m : Map) (t : TileIndex) (v : Z) : result Map :=
  x ← tile_at m t; Ok (store m t (with_m4 x v)).

Definition assign_m5 (m : Map) (t : TileIndex) (v : Z) : result Map :=
  x ← tile_at m t; Ok (store m t (with_m5 x v)).

(** What [tile.h] provides for the constructors and the sources do not
    show: the owners and the two writers [SetTileType] and [SetTileOwner].
    Nothing is assumed about what they store or whether they return. *)
Class TileWriters `{TH : TileHeader} : Type := {
  Owner : Type;
  SetTileType : Map -> TileIndex -> TileType -> result Map;
  SetTileOwner : Map -> TileIndex -> Owner -> result Map
}.

(** Writers for the worked examples: the class goes to the high nibble of
    [type_height], the owner to [m1]. *)
Definition example_SetTileType (m : Map) (t : TileIndex) (ty : Z)
    : result Map :=
  x ← tile_at m t;
  Ok (store m t
        {| type_height := u8 (SB (type_height x) 4 4 ty);
           m1 := m1 x; m2 := m2 x; m3 := m3 x; m4 := m4 x; m5 := m5 x |}).

Definition example_SetTileOwner (m : Map) (t : TileIndex) (o : Z)
    : result Map :=
  x ← tile_at m t;
  Ok (store m t
        {| type_height := type_height x;
           m1 := u8 o; m2 := m2 x; m3 := m3 x; m4 := m4 x; m5 := m5 x |}).

Definition example_writers : @TileWriters example_header :=
  @Build_TileWriters example_header Z example_SetTileType example_SetTileOwner.

Section Constructors.
Context `{TW : TileWriters}.

Definition MakeRailNormal (m : Map) (t : TileIndex) (o : Owner) (b r : Z)
    : result Map :=
  m ← SetTileType m t MP_RAILWAY;
  m ← SetTileOwner m t o;
  m ← assign_m2 m t 0;
  m ← assign_m3 m t r;
  m ← assign_m4 m t 0;
  assign_m5 m t (Z.lor RAIL_TYPE_NORMAL b).

Definition MakeRailDepot (m : Map) (t : TileIndex) (o : Owner) (d r : Z)
    : result Map :=
  m ← SetTileType m t MP_RAILWAY;
  m ← SetTileOwner m t o;
  m ← assign_m2 m t 0;
  m ← assign_m3 m t r;
  m ← assign_m4 m t 0;
  assign_m5 m t (Z.lor (Z.lor RAIL_TYPE_DEPOT_WAYPOINT RAIL_SUBTYPE_DEPOT) d).

Definition MakeRailWaypoint (m : Map) (t : TileIndex) (o : Owner)
    (a r index : Z) : result Map :=
  m ← SetTileType m t MP_RAILWAY;
  m ← SetTileOwner m t o;
  m ← assign_m2 m t index;
  m ← assign_m3 m t r;
  m ← assign_m4 m t 0;
  assign_m5 m t
    (Z.lor (Z.lor RAIL_TYPE_DEPOT_WAYPOINT RAIL_SUBTYPE_WAYPOINT) a).

End Constructors.

(** The rail tile type and subtype as the bits of [m5] spell them. *)
Definition rail_tile_type_bits (x : Tile) : Z :=
  Z.land (m5 x) RAIL_TILE_TYPE_MASK.

Definition rail_subtype_bits (x : Tile) : Z :=
  Z.land (m5 x) RAIL_SUBTYPE_MASK.

End RailMap.

(** ** Road vehicles ([roadveh.h]) *)

Module RoadVeh.

(** Modelled from the spec: the vehicle record. Its declaration is not
    among the sources; the fields are the ones the two predicates read: the
    vehicle class [type], the status byte [vehstatus] and the state byte of
    the road member of the union [u]. *)
Record Vehicle : Type := mkVehicle {
  type : Z;
  vehstatus : Z;
  u_road_state : Z
}.

(** Constants of [vehicle.h] that the sources do not show. *)
Class VehicleHeader : Type := {
  VEH_Road : Z;
  VS_STOPPED : Z
}.

(** Values of the two constants for the worked examples. *)
Definition example_vehicle_header : VehicleHeader :=
  {| VEH_Road := 0x11; VS_STOPPED := 0x02 |}.

Section Predicates.
Context `{VH : VehicleHeader}.

Definition IsRoadVehInDepot (v : Vehicle) : result bool :=
  _ ← assert (type v =? VEH_Road);
  Ok (u_road_state v =? 254).

(** [&&] evaluates its right operand only when the left one is true; the
    right operand is the integer [vehstatus & VS_STOPPED] read as a truth
    value. *)
Definition IsRoadVehInDepotStopped (v : Vehicle) : result bool :=
  IsRoadVehInDepot v ≫= fun d : bool =>
  Ok (if d then negb (Z.land (vehstatus v) VS_STOPPED =? 0) else false).

End Predicates.

End RoadVeh.

(** ** The pseudo random generator ([random_func.cpp]) *)

Module Random.

(** [uint32_t state[2]] *)
Record Randomizer : Type := mkRandomizer { state0 : Z; state1 : Z }.

(** [Randomizer::Next()]: returns the value and the advanced generator. *)
Definition Next (r : Randomizer) : Z * Randomizer :=
  let s := state0 r in
  let t := state1 r in
  let s0' := u32 (u32 (s + rotr32 (Z.lxor t 0x1234567F) 7) + 1) in
  let s1' := u32 (rotr32 s 3 - 1) in
  (s1', {| state0 := s0'; state1 := s1' |}).

(** [Randomizer::Next(uint32_t limit)]: both factors are widened to
    [uint64_t], the product wraps at 64 bits, and the shifted result is
    narrowed to the [uint32_t] return type. *)
Definition Next_limit (r : Randomizer) (limit : Z) : Z * Randomizer :=
  let '(v, r') := Next r in
  (u32 (Z.shiftr (u64 (u64 v * u64 limit)) 32), r').

(** [Randomizer::SetSeed] *)
Definition SetSeed (r : Randomizer) (seed : Z) : Randomizer :=
  let r1 := {| state0 := seed; state1 := state1 r |} in
  {| state0 := state0 r1; state1 := seed |}.

(** The two process-wide generators [_random] and [_interactive_random]. *)
Record Globals : Type := mkGlobals {
  _random : Randomizer;
  _interactive_random : Randomizer
}.

(** [SetRandomSeed]: the product is computed in [uint32_t]. *)
Definition SetRandomSeed (g : Globals) (seed : Z) : Globals :=
  let g1 := {| _random := SetSeed (_random g) seed;
               _interactive_random := _interactive_random g |} in
  {| _random := _random g1;
     _interactive_random :=
       SetSeed (_interactive_random g1) (u32 (seed * 0x1234567)) |}.

(** The recurrence as the specification words it: one reduction modulo
    [2^32] per state word, rotation given arithmetically. *)
Definition rotr_spec (x k : Z) : Z :=
  (x / 2 ^ k + (x mod 2 ^ k) * 2 ^ (32 - k)) mod 2 ^ 32.

Definition Next_spec (s0 s1 : Z) : Z * Z :=
  ((s0 + rotr_spec (Z.lxor s1 0x1234567F) 7 + 1) mod 2 ^ 32,
   (rotr_spec s0 3 - 1) mod 2 ^ 32).

(** *** [RandomBytesWithFallback] *)

(** The branch of the conditional compilation that the build selected. *)
Inductive Platform : Type :=
| Windows         (* _WIN32 *)
| BSD             (* __APPLE__, __NetBSD__, __FreeBSD__, __OpenBSD__ *)
| Glibc           (* glibc 2.25 or later *)
| Emscripten      (* __EMSCRIPTEN__ *)
| NoCryptoSource. (* none of the above *)

(** Parts of the repository and of the C++ library that the function uses
    and the sources do not show: the 64-bit hash of [hash_func.hpp] and the
    successive readings of [std::chrono::steady_clock], in nanoseconds. *)
Record Externals : Type := mkExternals {
  SimpleHash64 : Z -> Z;
  steady_clock_now : nat -> Z
}.

(** What the operating system answers to the one call a platform branch
    makes: the status it returns, the bytes it has to offer, and (for the
    browser) whether [window.crypto.getRandomValues] exists. *)
Record OsCall : Type := mkOsCall {
  os_res : Z;
  os_bytes : Z -> Z;
  js_crypto : bool
}.

(** The bytes stored through the span during one call: [b k = Some v] when
    [buf[k]] was written, last with [v]; [None] when it was not written. *)
Definition Buffer : Type := Z -> option Z.

Definition unwritten : Buffer := fun _ => None.

(** [buf[i] = v] *)
Definition buf_write (b : Buffer) (i v : Z) : Buffer :=
  fun k => if k =? i then Some (u8 v) else b k.

(** The operating system stores [n] bytes at the start of the buffer. *)
Definition os_write (o : OsCall) (n : Z) (b : Buffer) : Buffer :=
  fun k => if (0 <=? k) && (k <? n) then Some (u8 (os_bytes o k)) else b k.

Definition written (b : Buffer) (k : Z) : Prop := exists v, b k = Some v.

(** Process state the function reads and changes. [debug_log] collects the
    [DEBUG(misc, level, ...)] calls, oldest first. *)
Record State : Type := mkState {
  globals : Globals;
  warned_once : bool;
  debug_log : list (Z * string);
  clock_reads : nat
}.

Definition fallback_message : string :=
  "Cryptographically-strong random generator unavailable; using fallback".

(** [warned_once.exchange(v)]: one indivisible read-and-write. *)
Definition exchange (v : bool) (s : State) : bool * State :=
  (warned_once s,
   {| globals := globals s; warned_once := v;
      debug_log := debug_log s; clock_reads := clock_reads s |}).

(** [DEBUG(misc, level, msg)] *)
Definition DEBUG_misc (level : Z) (msg : string) (s : State) : State :=
  {| globals := globals s; warned_once := warned_once s;
     debug_log := debug_log s ++ [(level, msg)];
     clock_reads := clock_reads s |}.

(** Modelled from the spec: [InteractiveRandom()], declared in a header that
    is not among the sources, draws from the UI-side generator
    [_interactive_random]. *)
Definition InteractiveRandom (s : State) : Z * State :=
  let '(v, r') := Next (_interactive_random (globals s)) in
  (v, {| globals := {| _random := _random (globals s);
                       _interactive_random := r' |};
         warned_once := warned_once s;
         debug_log := debug_log s; clock_reads := clock_reads s |}).

(** [steady_clock::now()] converted to a [uint64_t] count of nanoseconds. *)
Definition now_ns (E : Externals) (s : State) : Z * State :=
  (u64 (steady_clock_now E (clock_reads s)),
   {| globals := globals s; warned_once := warned_once s;
      debug_log := debug_log s; clock_reads := S (clock_reads s) |}).

(** The platform branch: the call to the operating system and the test
    that follows it. The boolean tells whether the function returned there.
    - [BCryptGenRandom] receives the length narrowed to the 32-bit [ULONG]
      and, when it reports success, has stored that many bytes;
    - [arc4random_buf] stores the whole length;
    - [getrandom] returns the number of bytes it stored, or a negative
      value;
    - the script stores the whole length and returns 1, or returns -1
      without storing when the browser has no generator. The browser
      accepts at most 65536 bytes per request and refuses a longer one with
      an exception, which this model does not represent: on this branch it
      covers the requests the browser accepts, and what is stated about the
      branch delivering is stated for those. *)
Definition crypto_source (p : Platform) (o : OsCall) (size : Z) (b : Buffer)
    : bool * Buffer :=
  match p with
  | Windows =>
      let res := os_res o in
      if 0 <=? res then (true, os_write o (u32 size) b) else (false, b)
  | BSD => (true, os_write o size b)
  | Glibc =>
      let res := os_res o in
      let b' := if 0 <? res then os_write o res b else b in
      if (0 <? res) && (u64 res =? size) then (true, b') else (false, b')
  | Emscripten =>
      let res := if js_crypto o then 1 else -1 in
      let b' := if js_crypto o then os_write o size b else b in
      if 0 <? res then (true, b') else (false, b')
  | NoCryptoSource => (false, b)
  end.

(** How far a call got with the fuel it was given. *)
Inductive Outcome : Type :=
| Returned (s : State) (b : Buffer)
| Running (s : State) (b : Buffer).

Definition outcome_state (r : Outcome) : State :=
  match r with Returned s _ | Running s _ => s end.

Definition outcome_buffer (r : Outcome) : Buffer :=
  match r with Returned _ b | Running _ b => b end.

(** One pass through the body of the fallback loop. *)
Definition fallback_body (E : Externals) (i : Z) (s : State) (b : Buffer)
    : State * Buffer :=
  let '(current_time, s1) := now_ns E s in
  let '(r, s2) := InteractiveRandom s1 in
  (s2, buf_write b i (SimpleHash64 E (Z.lxor current_time r))).

(** [for (uint i = 0; i < buf.size(); i ++) ...] from the value [i] of the
    counter on. The counter is a 32-bit [uint]; the bound is a [size_t].
    Each pass through the body takes one unit of fuel. *)
Fixpoint fallback_loop (E : Externals) (fuel : nat) (size i : Z)
    (s : State) (b : Buffer) : Outcome :=
  if i <? size then
    match fuel with
    | O => Running s b
    | S fuel' =>
        let '(s', b') := fallback_body E i s b in
        fallback_loop E fuel' size (u32 (i + 1)) s' b'
    end
  else Returned s b.

(** [RandomBytesWithFallback(buf)] for a span of [size] bytes. *)
Definition RandomBytesWithFallback (E : Externals) (p : Platform)
    (o : OsCall) (fuel : nat) (size : Z) (s : State) : Outcome :=
  let '(done, b) := crypto_source p o size unwritten in
  if done then Returned s b
  else
    let '(have_warned, s1) := exchange true s in
    let s2 := DEBUG_misc (if have_warned then 1 else 0) fallback_message s1 in
    fallback_loop E fuel size 0 s2 b.

(** A sequence of calls made one after the other. A call that has not
    returned with its fuel leaves the program inside that call. *)
Record Call : Type := mkCall {
  call_os : OsCall;
  call_size : Z;
  call_fuel : nat
}.

Fixpoint run_calls (E : Externals) (p : Platform) (cs : list Call)
    (s : State) : State :=
  match cs with
  | [] => s
  | c :: cs' =>
      match RandomBytesWithFallback E p (call_os c) (call_fuel c)
              (call_size c) s with
      | Returned s' _ => run_calls E p cs' s'
      | Running s' _ => s'
      end
  end.

Definition reaches_fallback (p : Platform) (c : Call) : bool :=
  negb (fst (crypto_source p (call_os c) (call_size c) unwritten)).

(** The verbosity levels of the logged messages, oldest first. *)
Definition levels (s : State) : list Z := map fst (debug_log s).

(** The levels the warning is expected at after [n] calls took the
    fallback: full detail once, demoted afterwards. *)
Definition expected_levels (n : nat) : list Z :=
  match n with
  | O => []
  | S k => 0 :: repeat 1 k
  end.

(** A call whose fuel covers one pass per byte of a buffer that a 32-bit
    counter can index. *)
Definition fuelled (c : Call) : Prop :=
  0 <= call_size c < 2 ^ 32 /\ (Z.to_nat (call_size c) <= call_fuel c)%nat.

(** The invariant of a run: [n] calls took the fallback so far. *)
Definition logged (n : nat) (s : State) : Prop :=
  warned_once s = (0 <? n)%nat /\ levels s = expected_levels n.

(** The state of a freshly started program, whatever the generators hold. *)
Definition initial (s : State) : Prop :=
  warned_once s = false /\ debug_log s = [].

(** *** Threads inside the opening of the fallback

    The exchange and the [DEBUG] call are two steps of a thread; between
    them the thread holds the value the exchange returned. A schedule names
    the thread that takes the next step. *)
Inductive Pc : Type :=
| AtExchange
| AtDebug (have_warned : bool)
| Logged.

Definition thread_step (pc : Pc) (s : State) : Pc * State :=
  match pc with
  | AtExchange =>
      let '(have_warned, s') := exchange true s in (AtDebug have_warned, s')
  | AtDebug have_warned =>
      (Logged, DEBUG_misc (if have_warned then 1 else 0) fallback_message s)
  | Logged => (Logged, s)
  end.

Fixpoint interleave (sched : list nat) (pcs : list Pc) (s : State)
    : list Pc * State :=
  match sched with
  | [] => (pcs, s)
  | t :: sched' =>
      match pcs !! t with
      | Some pc =>
          let '(pc', s') := thread_step pc s in
          interleave sched' (<[t := pc']> pcs) s'
      | None => interleave sched' pcs s
      end
  end.

(** A thread that received [false] from the exchange and has not logged
    yet. *)
Definition holds_clear (pc : Pc) : bool :=
  match pc with
  | AtDebug false => true
  | _ => false
  end.

Fixpoint pending (pcs : list Pc) : nat :=
  match pcs with
  | [] => 0
  | pc :: pcs' => ((if holds_clear pc then 1 else 0) + pending pcs')%nat
  end.

Definition full_detail (s : State) : nat :=
  count_occ Z.eq_dec (levels s) 0.

(** Threads that hold [false] plus full-detail messages already logged:
    none while the flag is clear, at most one once it is set. *)
Definition at_most_one (pcs : list Pc) (s : State) : Prop :=
  (pending pcs + full_detail s <= if warned_once s then 1 else 0)%nat.

(** *** Repeated draws and the debug build *)

(** Both state words are 32-bit values. *)
Definition word_state (r : Randomizer) : Prop :=
  0 <= state0 r < 2 ^ 32 /\ 0 <= state1 r < 2 ^ 32.

(** The generator after [n] calls of [Next], and the value of call
    number [k] (counted from 0). *)
Fixpoint advance (n : nat) (r : Randomizer) : Randomizer :=
  match n with
  | O => r
  | S n' => advance n' (snd (Next r))
  end.

Definition draw (k : nat) (r : Randomizer) : Z := fst (Next (advance k r)).

(** What the [RANDOM_DEBUG] build reads from the rest of the game and the
    sources do not show: the network flags, the first client socket when
    its id is valid (with whether its status is [STATUS_INACTIVE]), and the
    date, frame counter and company that go into the message. *)
Record DebugEnv : Type := mkDebugEnv {
  _networking : bool;
  _network_server : bool;
  client0_inactive : option bool;
  hex_date : string;
  _frame_counter : Z;
  _current_company : Z
}.

(** One [DEBUG(random, level, ...)] call: the level and the arguments of
    the format, in order. *)
Record RandomLogEntry : Type := mkRandomLogEntry {
  rl_level : Z;
  rl_date : string;
  rl_frame : Z;
  rl_company : Z;
  rl_file : string;
  rl_line : Z
}.

Record DebugState : Type := mkDebugState {
  dbg_globals : Globals;
  random_log : list RandomLogEntry
}.

(** The condition of [DoRandom], with the short-circuit evaluation of
    [&&] and [||]: the socket is looked at only when its id is valid. *)
Definition random_is_logged (env : DebugEnv) : bool :=
  if _networking env then
    if negb (_network_server env) then true
    else
      match client0_inactive env with
      | Some inactive => negb inactive
      | None => false
      end
  else false.

(** [DoRandom(line, file)] *)
Definition DoRandom (env : DebugEnv) (line : Z) (file : string)
    (s : DebugState) : Z * DebugState :=
  let s1 :=
    if random_is_logged env then
      {| dbg_globals := dbg_globals s;
         random_log := random_log s ++
           [ {| rl_level := 0; rl_date := hex_date env;
                rl_frame := _frame_counter env;
                rl_company := u8 (_current_company env);
                rl_file := file; rl_line := line |} ] |}
    else s in
  let '(v, r') := Next (_random (dbg_globals s1)) in
  (v, {| dbg_globals :=
           {| _random := r';
              _interactive_random := _interactive_random (dbg_globals s1) |};
         random_log := random_log s1 |}).

(** [DoRandomRange(limit, line, file)] *)
Definition DoRandomRange (env : DebugEnv) (limit : Z) (line : Z)
    (file : string) (s : DebugState) : Z * DebugState :=
  let '(v, s') := DoRandom env line file s in
  (u32 (Z.shiftr (u64 (u64 v * u64 limit)) 32), s').

(** Stand-ins for the worked examples: an identity hash, a clock that
    advances by one per reading, and a freshly seeded program. *)
Definition example_externals : Externals :=
  {| SimpleHash64 := fun h => h; steady_clock_now := fun n => Z.of_nat n |}.

Definition example_state : State :=
  {| globals := SetRandomSeed
                  {| _random := {| state0 := 0; state1 := 0 |};
                     _interactive_random := {| state0 := 0; state1 := 0 |} |}
                  1;
     warned_once := false; debug_log := []; clock_reads := 0 |}.

(** Three calls for two bytes each on a glibc build: [getrandom] fails,
    then delivers both bytes, then delivers only one. *)
Definition example_calls : list Call :=
  [ {| call_os := {| os_res := -1; os_bytes := fun _ => 0; js_crypto := false |};
       call_size := 2; call_fuel := 2 |};
    {| call_os := {| os_res := 2; os_bytes := fun k => 0xA0 + k; js_crypto := false |};
       call_size := 2; call_fuel := 2 |};
    {| call_os := {| os_res := 1; os_bytes := fun k => 0xB0 + k; js_crypto := false |};
       call_size := 2; call_fuel := 2 |} ].

End Random.

(** * Properties *)

(** ** Facts about fixed-width arithmetic *)

Section BitsFacts.

Lemma wrap_range w x : 0 <= w -> 0 <= wrap w x < 2 ^ w.
Proof.
  intros Hw. unfold wrap. apply Z.mod_pos_bound.
  apply Z.pow_pos_nonneg; lia.
Qed.

Lemma u32_range x : 0 <= u32 x < 2 ^ 32.
Proof. apply wrap_range. lia. Qed.

Lemma u8_range x : 0 <= u8 x < 2 ^ 8.
Proof. apply wrap_range. lia. Qed.

Lemma u32_small x : 0 <= x < 2 ^ 32 -> u32 x = x.
Proof. intros H. unfold u32, wrap. apply Z.mod_small. exact H. Qed.

Lemma u64_small x : 0 <= x < 2 ^ 64 -> u64 x = x.
Proof. intros H. unfold u64, wrap. apply Z.mod_small. exact H. Qed.

Lemma u32_add_l a b : u32 (u32 a + b) = u32 (a + b).
Proof. unfold u32, wrap. apply Zplus_mod_idemp_l. Qed.

Lemma testbit_wrap w x i :
  0 <= w -> Z.testbit (wrap w x) i = (i <? w) && Z.testbit x i.
Proof.
  intros Hw. unfold wrap.
  destruct (Z.ltb_spec i w) as [Hlt | Hge]; simpl.
  - destruct (Z.neg_nonneg_cases i) as [Hneg | Hnn].
    + rewrite !Z.testbit_neg_r by lia. reflexivity.
    + apply Z.mod_pow2_bits_low. lia.
  - apply Z.mod_pow2_bits_high. lia.
Qed.

(** A low part below [2^n] and a multiple of [2^n] share no bit, so
    or-ing them adds them. *)
Lemma lor_disjoint_add a b n :
  0 <= n -> 0 <= a < 2 ^ n -> Z.lor a (b * 2 ^ n) = a + b * 2 ^ n.
Proof.
  intros Hn Ha.
  assert (Hland : Z.land a (b * 2 ^ n) = 0).
  { apply Z.bits_inj'. intros i Hi.
    rewrite Z.land_spec, Z.bits_0.
    destruct (Z.ltb_spec i n) as [Hlt | Hge].
    - rewrite Z.mul_pow2_bits_low by lia. apply andb_false_r.
    - replace a with (a mod 2 ^ n) by (apply Z.mod_small; lia).
      rewrite Z.mod_pow2_bits_high by lia. reflexivity. }
  rewrite <- Z.lxor_lor by exact Hland.
  symmetry. apply Z.add_nocarry_lxor. exact Hland.
Qed.

(** The shift-and-or rotation of the code is the arithmetic rotation. *)
Lemma rotr32_arith x k :
  0 <= x < 2 ^ 32 -> 0 < k < 32 ->
  rotr32 x k = Random.rotr_spec x k.
Proof.
  intros Hx Hk. unfold rotr32, Random.rotr_spec.
  rewrite (Z.mod_small k 32) by lia.
  destruct (Z.eqb_spec k 0) as [-> | _]; [lia |].
  assert (Hpk : 0 < 2 ^ k) by (apply Z.pow_pos_nonneg; lia).
  assert (Hpr : 0 < 2 ^ (32 - k)) by (apply Z.pow_pos_nonneg; lia).
  assert (Hsplit : 2 ^ 32 = 2 ^ k * 2 ^ (32 - k)).
  { rewrite <- Z.pow_add_r by lia. f_equal. lia. }
  rewrite Z.shiftr_div_pow2, Z.shiftl_mul_pow2 by lia.
  unfold u32, wrap.
  rewrite Hsplit at 1.
  rewrite Zmult_mod_distr_r.
  assert (Hhi : 0 <= x / 2 ^ k < 2 ^ (32 - k)).
  { split; [apply Z.div_pos; lia |].
    apply Z.div_lt_upper_bound; lia. }
  assert (Hlo : 0 <= x mod 2 ^ k < 2 ^ k) by (apply Z.mod_pos_bound; lia).
  rewrite lor_disjoint_add by lia.
  symmetry. apply Z.mod_small. nia.
Qed.

Lemma lxor_u32 a b : 0 <= a < 2 ^ 32 -> 0 <= b < 2 ^ 32 ->
  0 <= Z.lxor a b < 2 ^ 32.
Proof.
  intros Ha Hb. split; [apply Z.lxor_nonneg; lia |].
  destruct (Z.eq_dec (Z.lxor a b) 0) as [-> | Hnz]; [lia |].
  assert (Hnn : 0 <= Z.lxor a b) by (apply Z.lxor_nonneg; lia).
  apply Z.log2_lt_pow2; [lia |].
  pose proof (Z.log2_lxor a b ltac:(lia) ltac:(lia)) as Hl.
  assert (Z.log2 a < 32).
  { destruct (Z.eq_dec a 0) as [-> | ?]; [simpl; lia |].
    apply Z.log2_lt_pow2; lia. }
  assert (Z.log2 b < 32).
  { destruct (Z.eq_dec b 0) as [-> | ?]; [simpl; lia |].
    apply Z.log2_lt_pow2; lia. }
  lia.
Qed.

End BitsFacts.

(** ** The Randomizer *)

Section RandomizerFacts.
Import Random.

Example Next_from_zero :
  Next {| state0 := 0; state1 := 0 |}
  = (0xFFFFFFFF, {| state0 := 0xFE2468AD; state1 := 0xFFFFFFFF |}).
Proof. reflexivity. Qed.

Lemma Next_value r : fst (Next r) = state1 (snd (Next r)).
Proof. reflexivity. Qed.

Lemma Next_u32 r : 0 <= fst (Next r) < 2 ^ 32.
Proof. unfold Next; simpl. apply u32_range. Qed.

(** C1. For 32-bit state words [s0] and [s1], one call of [Next] leaves
    [s0 + rotr (s1 xor 0x1234567F) 7 + 1] in the first word and
    [rotr s0 3 - 1] in the second, both modulo [2^32] and both computed from
    the words before the call, and it returns the new second word. *)
Theorem Next_recurrence (s0 s1 : Z) :
  0 <= s0 < 2 ^ 32 -> 0 <= s1 < 2 ^ 32 ->
  Next {| state0 := s0; state1 := s1 |}
  = (snd (Next_spec s0 s1),
     {| state0 := fst (Next_spec s0 s1); state1 := snd (Next_spec s0 s1) |}).
Proof.
  intros H0 H1. unfold Next, Next_spec; simpl state0; simpl state1; simpl fst; simpl snd.
  assert (Hx : 0 <= Z.lxor s1 0x1234567F < 2 ^ 32)
    by (apply lxor_u32; lia).
  rewrite (rotr32_arith _ 7 Hx) by lia.
  rewrite (rotr32_arith _ 3 H0) by lia.
  rewrite u32_add_l.
  reflexivity.
Qed.

Lemma Next_recurrence_witness :
  Next {| state0 := 1; state1 := 2 |}
  = (snd (Next_spec 1 2),
     {| state0 := fst (Next_spec 1 2); state1 := snd (Next_spec 1 2) |}).
Proof. apply (Next_recurrence 1 2); lia. Defined.

(** C3. For a limit with [0 < limit] (a [uint32_t], so below [2^32]),
    [Next(limit)] returns the high 32 bits of the 64-bit product of the raw
    [Next()] output and [limit]; the product does not overflow, and the value
    lies in [0, limit). The generator advances exactly as by [Next()]. *)
Theorem Next_limit_range (r : Randomizer) (limit : Z) :
  0 < limit < 2 ^ 32 ->
  let raw := fst (Next r) in
  let v := fst (Next_limit r limit) in
  v = Z.shiftr (raw * limit) 32 /\
  v = raw * limit / 2 ^ 32 /\
  0 <= v < limit /\
  snd (Next_limit r limit) = snd (Next r).
Proof.
  intros Hl raw v.
  pose proof (Next_u32 r) as Hraw. fold raw in Hraw.
  assert (Hv : v = u32 (Z.shiftr (u64 (u64 raw * u64 limit)) 32)).
  { subst v raw. unfold Next_limit. destruct (Next r); reflexivity. }
  assert (Hprod : 0 <= raw * limit < 2 ^ 64) by nia.
  rewrite (u64_small raw), (u64_small limit), (u64_small _ Hprod) in Hv by lia.
  rewrite Z.shiftr_div_pow2 in * by lia.
  assert (Hq : 0 <= raw * limit / 2 ^ 32 < limit).
  { split; [apply Z.div_pos; lia |].
    apply Z.div_lt_upper_bound; nia. }
  rewrite u32_small in Hv by lia.
  repeat split; lia.
Qed.

Lemma Next_limit_range_witness :
  let r := {| state0 := 0; state1 := 0 |} in
  fst (Next_limit r 10) = 9 /\ 0 <= fst (Next_limit r 10) < 10.
Proof.
  pose proof (Next_limit_range {| state0 := 0; state1 := 0 |} 10
                ltac:(lia)) as H.
  simpl in H. destruct H as (_ & _ & Hr & _).
  split; [reflexivity | exact Hr].
Defined.

(** C7. [SetSeed(seed)] leaves [seed] in both state words. [SetRandomSeed]
    seeds [_random] with [seed] and [_interactive_random] with
    [seed * 0x1234567] modulo [2^32]. *)
Theorem SetRandomSeed_seeds (g : Globals) (r : Randomizer) (seed : Z) :
  SetSeed r seed = {| state0 := seed; state1 := seed |} /\
  _random (SetRandomSeed g seed) = SetSeed (_random g) seed /\
  _interactive_random (SetRandomSeed g seed)
  = SetSeed (_interactive_random g) ((seed * 0x1234567) mod 2 ^ 32) /\
  SetRandomSeed g seed
  = {| _random := {| state0 := seed; state1 := seed |};
       _interactive_random :=
         {| state0 := (seed * 0x1234567) mod 2 ^ 32;
            state1 := (seed * 0x1234567) mod 2 ^ 32 |} |}.
Proof. repeat split. Qed.

Example SetRandomSeed_wraps :
  _interactive_random
    (SetRandomSeed {| _random := {| state0 := 7; state1 := 8 |};
                      _interactive_random := {| state0 := 9; state1 := 10 |} |}
                   0xFFFFFFFF)
  = {| state0 := 0xFEDCBA99; state1 := 0xFEDCBA99 |}.
Proof. reflexivity. Qed.

End RandomizerFacts.

(** ** The bit macros *)

Section MacroFacts.

Lemma testbit_GB x s n i :
  0 <= s -> 0 <= n -> 0 <= i ->
  Z.testbit (GB x s n) i = (i <? n) && Z.testbit x (i + s).
Proof.
  intros Hs Hn Hi. unfold GB.
  rewrite Z.land_spec, Z.shiftr_spec, Z.testbit_ones_nonneg by lia.
  apply andb_comm.
Qed.

Lemma testbit_SB x s n d i :
  0 <= s -> 0 <= n -> 0 <= i ->
  Z.testbit (SB x s n d) i
  = if (s <=? i) && (i <? s + n) then Z.testbit d (i - s) else Z.testbit x i.
Proof.
  intros Hs Hn Hi. unfold SB.
  rewrite Z.lor_spec, !Z.land_spec, Z.lnot_spec, !Z.shiftl_spec by lia.
  rewrite Z.land_spec.
  destruct (Z.leb_spec s i) as [Hle | Hlt]; simpl.
  - rewrite !Z.testbit_ones_nonneg by lia.
    destruct (Z.ltb_spec i (s + n)) as [Hin | Hout].
    + replace (i - s <? n) with true by (symmetry; apply Z.ltb_lt; lia).
      simpl. rewrite andb_false_r, andb_true_r. reflexivity.
    + replace (i - s <? n) with false by (symmetry; apply Z.ltb_ge; lia).
      simpl. rewrite andb_true_r, andb_false_r, orb_false_r. reflexivity.
  - rewrite !(Z.testbit_neg_r _ (i - s)) by lia.
    simpl. rewrite andb_true_r, orb_false_r. reflexivity.
Qed.

(** Reading back, at byte width, the field that [SB] has just written. *)
Lemma GB_SB_byte x s n d :
  0 <= s -> 0 <= n -> s + n <= 8 ->
  GB (u8 (SB x s n d)) s n = d mod 2 ^ n.
Proof.
  intros Hs Hn Hw. apply Z.bits_inj'. intros i Hi.
  rewrite testbit_GB by lia.
  unfold u8. rewrite testbit_wrap, testbit_SB by lia.
  fold (wrap n d). rewrite testbit_wrap by lia.
  destruct (Z.ltb_spec i n) as [Hin | Hout]; simpl; [| reflexivity].
  replace (i + s <? 8) with true by (symmetry; apply Z.ltb_lt; lia).
  replace ((s <=? i + s) && (i + s <? s + n)) with true
    by (symmetry; apply andb_true_iff; split;
        [apply Z.leb_le | apply Z.ltb_lt]; lia).
  simpl. f_equal. lia.
Qed.

(** A byte-wide store of [SB] keeps every bit of the byte outside the
    field. *)
Lemma SB_byte_frame x s n d i :
  0 <= s -> 0 <= n -> 0 <= i < 8 -> i < s \/ s + n <= i ->
  Z.testbit (u8 (SB x s n d)) i = Z.testbit x i.
Proof.
  intros Hs Hn Hi Hout. unfold u8.
  rewrite testbit_wrap, testbit_SB by lia.
  replace (i <? 8) with true by (symmetry; apply Z.ltb_lt; lia).
  replace ((s <=? i) && (i <? s + n)) with false; [reflexivity |].
  symmetry. apply andb_false_iff.
  destruct Hout; [left; apply Z.leb_gt | right; apply Z.ltb_ge]; lia.
Qed.

(** Inside the field the stored bits are those of the value. *)
Lemma SB_byte_field x s n d i :
  0 <= s -> 0 <= n -> s + n <= 8 -> s <= i < s + n ->
  Z.testbit (u8 (SB x s n d)) i = Z.testbit d (i - s).
Proof.
  intros Hs Hn Hw Hin. unfold u8.
  rewrite testbit_wrap, testbit_SB by lia.
  replace (i <? 8) with true by (symmetry; apply Z.ltb_lt; lia).
  replace ((s <=? i) && (i <? s + n)) with true; [reflexivity |].
  symmetry. apply andb_true_iff. split; [apply Z.leb_le | apply Z.ltb_lt]; lia.
Qed.

(** For a value that fits the field, masking it first changes nothing: the
    insertion is the plain shift-and-or. *)
Lemma SB_shift_or x s n d :
  0 <= n -> 0 <= d < 2 ^ n -> SB x s n d = SB_shift_or_form x s n d.
Proof.
  intros Hn Hd. unfold SB, SB_shift_or_form.
  rewrite Z.land_ones by lia. rewrite Z.mod_small by lia. reflexivity.
Qed.

(** Inside the field the two forms store the same bits, whatever the
    value: they can differ only above the field, and only for a value that
    does not fit it. *)
Lemma SB_forms_agree_inside x s n d i :
  0 <= s -> 0 <= n -> s <= i < s + n ->
  Z.testbit (SB_shift_or_form x s n d) i = Z.testbit (SB x s n d) i.
Proof.
  intros Hs Hn Hi. rewrite testbit_SB by lia.
  replace ((s <=? i) && (i <? s + n)) with true
    by (symmetry; apply andb_true_iff; split;
        [apply Z.leb_le | apply Z.ltb_lt]; lia).
  unfold SB_shift_or_form.
  rewrite Z.lor_spec, Z.land_spec, Z.lnot_spec, !Z.shiftl_spec by lia.
  rewrite Z.testbit_ones_nonneg by lia.
  replace (i - s <? n) with true by (symmetry; apply Z.ltb_lt; lia).
  simpl. rewrite andb_false_r. reflexivity.
Qed.

Lemma HASBIT_testbit x y : 0 <= y -> HASBIT x y = Z.testbit x y.
Proof.
  intros Hy. unfold HASBIT.
  destruct (Z.testbit x y) eqn:Hb.
  - apply negb_true_iff, Z.eqb_neq. intros H0.
    assert (Hc : Z.testbit (Z.land x (Z.shiftl 1 y)) y = false)
      by (rewrite H0; apply Z.bits_0).
    rewrite Z.land_spec, Hb, Z.shiftl_spec, Z.sub_diag in Hc by lia.
    discriminate Hc.
  - apply negb_false_iff, Z.eqb_eq. apply Z.bits_inj'. intros i Hi.
    rewrite Z.land_spec, Z.bits_0, Z.shiftl_spec by lia.
    destruct (Z.eq_dec i y) as [-> | Hne].
    + rewrite Hb. reflexivity.
    + replace (Z.testbit 1 (i - y)) with false; [apply andb_false_r |].
      symmetry. destruct (Z.ltb_spec i y).
      * apply Z.testbit_neg_r. lia.
      * change 1 with (Z.ones 1). apply Z.ones_spec_high. lia.
Qed.

End MacroFacts.

(** ** Rail tile accessors *)

Section RailMapFacts.
Import RailMap.
Context `{TH : TileHeader}.

Lemma tile_at_Some (m : Map) (t : TileIndex) (x : Tile) :
  m !! t = Some x -> tile_at m t = Ok x.
Proof. intros H. unfold tile_at. rewrite H. reflexivity. Qed.

Lemma tile_at_Ok (m : Map) (t : TileIndex) (x : Tile) :
  tile_at m t = Ok x -> m !! t = Some x.
Proof.
  unfold tile_at. destruct (m !! t); intros H; [| discriminate H].
  injection H as ->. reflexivity.
Qed.

Lemma tile_at_in_range (m : Map) (t : TileIndex) :
  (t < length m)%nat -> exists x, m !! t = Some x /\ tile_at m t = Ok x.
Proof.
  intros Hlt. destruct (lookup_lt_is_Some_2 m t Hlt) as [x Hx].
  exists x. split; [exact Hx | apply tile_at_Some; exact Hx].
Qed.

Lemma store_same (m : Map) (t : TileIndex) (x y : Tile) :
  m !! t = Some x -> store m t y !! t = Some y.
Proof.
  intros Hx. unfold store. apply list_lookup_insert_eq.
  apply lookup_lt_Some with x. exact Hx.
Qed.

Lemma store_other (m : Map) (t k : TileIndex) (y : Tile) :
  k <> t -> store m t y !! k = m !! k.
Proof. intros Hne. unfold store. apply list_lookup_insert_ne. congruence. Qed.

Lemma store_length (m : Map) (t : TileIndex) (y : Tile) :
  length (store m t y) = length m.
Proof. apply length_insert. Qed.

(** Every setter either fails or stores, at [t], the tile it found there
    with one field replaced by a byte-wide [SB] over the setter's range. *)
Lemma run_setter_Ok (s : Setter) (m m' : Map) (t : TileIndex) (v : Z) :
  run_setter s m t v = Ok m' ->
  exists x, m !! t = Some x /\
    m' = store m t
           (match setter_field s with
            | F_m3 => with_m3 x
            | F_m4 => with_m4 x
            | F_m5 => with_m5 x
            end (SB (field (setter_field s) x)
                    (fst (setter_range s)) (snd (setter_range s)) v)).
Proof.
  destruct s; simpl;
    unfold SetRailType, SetRailTypeCrossing, SetRailTypeOnBridge,
           SetTrackBits, SetSignalType, SetSignalVariant, GetRailTileType;
    try (destruct (assert _); simpl; try discriminate);
    destruct (tile_at m t) as [x | |] eqn:Hx; simpl; try discriminate;
    try (destruct (assert _); simpl; try discriminate);
    intros H; injection H as <-;
    exists x; (split; [apply tile_at_Ok; exact Hx | reflexivity]).
Qed.

(** For a value that fits the setter's field the stored byte is the same
    whether the insertion masks the value or shifts it in as it is. *)
Lemma run_setter_shift_or (s : Setter) (m m' : Map) (t : TileIndex) (v : Z) :
  0 <= v < 2 ^ snd (setter_range s) ->
  run_setter s m t v = Ok m' ->
  exists x, m !! t = Some x /\
    m' = store m t
           (match setter_field s with
            | F_m3 => with_m3 x
            | F_m4 => with_m4 x
            | F_m5 => with_m5 x
            end (SB_shift_or_form (field (setter_field s) x)
                    (fst (setter_range s)) (snd (setter_range s)) v)).
Proof.
  intros Hv Hrun. destruct (run_setter_Ok s m m' t v Hrun) as (x & Hx & ->).
  exists x. split; [exact Hx |].
  rewrite SB_shift_or; [reflexivity | destruct s; simpl; lia | exact Hv].
Qed.

(** C5. On a tile of the map, [SetTrackBits(t, b)] with [b] inside the
    6-bit field succeeds, and [GetTrackBits(t)] on the resulting map returns
    exactly [b]. *)
Theorem SetTrackBits_GetTrackBits (m : Map) (t : TileIndex) (b : Z) :
  (t < length m)%nat -> 0 <= b < 64 ->
  exists m', SetTrackBits m t b = Ok m' /\ GetTrackBits m' t = Ok b.
Proof.
  intros Ht Hb. destruct (tile_at_in_range m t Ht) as (x & Hx & Hat).
  exists (store m t (with_m5 x (SB (m5 x) 0 6 b))). split.
  - unfold SetTrackBits. rewrite Hat. reflexivity.
  - unfold GetTrackBits.
    rewrite (tile_at_Some _ _ _ (store_same m t x _ Hx)). simpl.
    rewrite GB_SB_byte by lia. f_equal. apply Z.mod_small. exact Hb.
Qed.

Example SetTrackBits_keeps_tile_type :
  SetTrackBits [mkTile 0x10 0 0 0 0 0x81] 0%nat 0x2A
  = Ok [mkTile 0x10 0 0 0 0 0xAA].
Proof. reflexivity. Qed.

(** C6. A call of one of the six setters with a value that fits the
    setter's field, when it returns, has changed nothing but the setter's
    bit range in the setter's byte of tile [t]: the map keeps its length,
    every other tile is the same, the other fields of tile [t] are the
    same, and the byte keeps each of its eight bits that lies outside the
    range. Inside the range the byte holds the bits of the value. The new
    byte is the plain shift-and-or of the value into the old byte, so
    nothing here depends on how the insertion treats a wider value. *)
Theorem setter_frame (s : Setter) (m m' : Map) (t : TileIndex) (v : Z) :
  0 <= v < 2 ^ snd (setter_range s) ->
  run_setter s m t v = Ok m' ->
  length m' = length m /\
  (forall k : TileIndex, k <> t -> m' !! k = m !! k) /\
  exists x y : Tile,
    m !! t = Some x /\ m' !! t = Some y /\
    same_except (setter_field s) x y /\
    field (setter_field s) y
    = u8 (SB_shift_or_form (field (setter_field s) x)
            (fst (setter_range s)) (snd (setter_range s)) v) /\
    (forall i, 0 <= i < 8 ->
       i < fst (setter_range s) \/
       fst (setter_range s) + snd (setter_range s) <= i ->
       Z.testbit (field (setter_field s) y) i
       = Z.testbit (field (setter_field s) x) i) /\
    (forall i,
       fst (setter_range s) <= i
         < fst (setter_range s) + snd (setter_range s) ->
       Z.testbit (field (setter_field s) y) i
       = Z.testbit v (i - fst (setter_range s))).
Proof.
  intros Hv Hrun.
  destruct (run_setter_Ok s m m' t v Hrun) as (x & Hx & ->).
  split; [apply store_length |].
  split; [intros k Hk; apply store_other; exact Hk |].
  eexists x, _. split; [exact Hx |].
  split; [apply (store_same m t x _ Hx) |].
  destruct s; simpl in *;
    (split; [unfold same_except; simpl; repeat split; congruence |]);
    (split; [rewrite <- SB_shift_or by lia; reflexivity |]);
    (split; [intros i Hi Hout; apply SB_byte_frame; lia
            | intros i Hin; apply SB_byte_field; lia]).
Qed.

(** The setters without an assertion succeed on every tile of the map. *)
Lemma unguarded_setters_succeed (s : Setter) (m : Map) (t : TileIndex) (v : Z) :
  s <> S_SignalType -> (t < length m)%nat -> is_Ok (run_setter s m t v).
Proof.
  intros Hs Ht. destruct (tile_at_in_range m t Ht) as (x & _ & Hat).
  destruct s; try congruence; simpl;
    unfold SetRailType, SetRailTypeCrossing, SetRailTypeOnBridge,
           SetTrackBits, SetSignalVariant;
    rewrite Hat; simpl; eexists; reflexivity.
Qed.

(** C10. [GetRailWaypointBits] is the single track bit of
    [GetRailWaypointTrack], on every map and tile index; on a tile of the
    map both are decided by bit 0 of [m5]: [TRACK_Y] and [TRACK_BIT_Y] when
    it is set, [TRACK_X] and [TRACK_BIT_X] when it is clear. *)
Theorem GetRailWaypointBits_of_Track (m : Map) (t : TileIndex) :
  GetRailWaypointBits m t = Z.shiftl 1 <$> GetRailWaypointTrack m t /\
  (forall x, m !! t = Some x ->
     if Z.testbit (m5 x) 0
     then GetRailWaypointTrack m t = Ok TRACK_Y /\
          GetRailWaypointBits m t = Ok TRACK_BIT_Y
     else GetRailWaypointTrack m t = Ok TRACK_X /\
          GetRailWaypointBits m t = Ok TRACK_BIT_X).
Proof.
  unfold GetRailWaypointBits, GetRailWaypointTrack. split.
  - destruct (tile_at m t) as [x | |]; simpl; try reflexivity.
    unfold HASBIT. change (Z.shiftl 1 0) with 1.
    destruct (Z.land (m5 x) 1 =? 0); reflexivity.
  - intros x Hx. rewrite <- (HASBIT_testbit (m5 x) 0) by lia.
    rewrite (tile_at_Some _ _ _ Hx). unfold HASBIT.
    change (Z.shiftl 1 0) with 1. simpl.
    destruct (Z.land (m5 x) 1 =? 0); simpl; split; reflexivity.
Qed.

Example waypoint_along_Y :
  let m := [mkTile 0x10 0 7 0 0 0xC5] in
  GetRailWaypointTrack m 0%nat = Ok 1 /\ GetRailWaypointBits m 0%nat = Ok 2.
Proof. split; reflexivity. Qed.

(** What [GetRailTileType] returns when its own assertion holds. *)
Lemma GetRailTileType_Ok (m : Map) (t : TileIndex) (x : Tile) :
  m !! t = Some x -> IsTileType m t MP_RAILWAY = true ->
  GetRailTileType m t = Ok (Z.land (m5 x) RAIL_TILE_TYPE_MASK).
Proof.
  intros Hx Hty. unfold GetRailTileType. rewrite Hty. simpl.
  rewrite (tile_at_Some _ _ _ Hx). reflexivity.
Qed.

(** On a signals tile the two guarded accessors read and write bits 0..1
    of [m4]. *)
Lemma signal_type_on_signals (m : Map) (t : TileIndex) (x : Tile) (s : Z) :
  m !! t = Some x -> IsTileType m t MP_RAILWAY = true ->
  Z.land (m5 x) RAIL_TILE_TYPE_MASK = RAIL_TYPE_SIGNALS ->
  GetSignalType m t = Ok (GB (m4 x) 0 2) /\
  SetSignalType m t s = Ok (store m t (with_m4 x (SB (m4 x) 0 2 s))).
Proof.
  intros Hx Hty Hsig. unfold GetSignalType, SetSignalType.
  rewrite (GetRailTileType_Ok m t x Hx Hty), Hsig. simpl.
  rewrite (tile_at_Some _ _ _ Hx). split; reflexivity.
Qed.

(** C4, as the code has it. [GetSignalType] and [SetSignalType] assert that
    the rail tile type is [RAIL_TYPE_SIGNALS] (and, through
    [GetRailTileType], that the tile is a railway tile): on a tile of the
    map that fails either test both end in the assertion failure, return no
    value and store nothing. The accessors of the rail type, of the track
    bits, of the depot direction and of the waypoint axis carry no
    assertion: on every tile of the map, whatever its tag, they return the
    bit field. *)
Theorem discriminant_checks (m : Map) (t : TileIndex) (x : Tile) (s : Z) :
  m !! t = Some x ->
  (IsTileType m t MP_RAILWAY = false \/
   Z.land (m5 x) RAIL_TILE_TYPE_MASK <> RAIL_TYPE_SIGNALS ->
   GetSignalType m t = AssertFail /\ SetSignalType m t s = AssertFail) /\
  GetRailType m t = Ok (GB (m3 x) 0 4) /\
  GetRailTypeCrossing m t = Ok (GB (m4 x) 0 4) /\
  GetRailTypeOnBridge m t = Ok (GB (m3 x) 4 4) /\
  GetTrackBits m t = Ok (GB (m5 x) 0 6) /\
  GetRailDepotDirection m t = Ok (GB (m5 x) 0 2) /\
  GetRailWaypointTrack m t = Ok (if HASBIT (m5 x) 0 then TRACK_Y else TRACK_X).
Proof.
  intros Hx. pose proof (tile_at_Some _ _ _ Hx) as Hat. split.
  - intros Hbad. unfold GetSignalType, SetSignalType, GetRailTileType.
    destruct (IsTileType m t MP_RAILWAY) eqn:Hty; simpl; [| split; reflexivity].
    destruct Hbad as [Hf | Hne]; [discriminate Hf |].
    rewrite Hat. simpl.
    destruct (Z.eqb_spec (Z.land (m5 x) RAIL_TILE_TYPE_MASK) RAIL_TYPE_SIGNALS)
      as [Heq | _]; [contradiction | split; reflexivity].
  - unfold GetRailType, GetRailTypeCrossing, GetRailTypeOnBridge,
      GetTrackBits, GetRailDepotDirection, GetRailWaypointTrack.
    rewrite Hat. simpl. repeat split.
Qed.

End RailMapFacts.

(** ** Worked instances on concrete maps *)

Section RailMapExamples.
Import RailMap.

Lemma SetTrackBits_GetTrackBits_witness :
  let m := [mkTile 0x10 0 0 0 0 0xC4; mkTile 0x10 0 0 0 0 0x81] in
  exists m', SetTrackBits m 1%nat 0x2A = Ok m' /\ GetTrackBits m' 1%nat = Ok 0x2A.
Proof.
  apply (SetTrackBits_GetTrackBits
           [mkTile 0x10 0 0 0 0 0xC4; mkTile 0x10 0 0 0 0 0x81] 1%nat 0x2A);
    simpl; lia.
Defined.

Lemma setter_frame_witness :
  let m := [mkTile 0x10 1 2 0xA5 0x5A 0x41; mkTile 0x10 3 4 5 6 7] in
  let m' := [mkTile 0x10 1 2 0xA5 0x5E 0x41; mkTile 0x10 3 4 5 6 7] in
  SetSignalVariant m 0%nat 1 = Ok m' /\
  length m' = length m /\
  (forall k : TileIndex, k <> 0%nat -> m' !! k = m !! k) /\
  exists x y : Tile,
    m !! 0%nat = Some x /\ m' !! 0%nat = Some y /\ same_except F_m4 x y.
Proof.
  intros m m'. split; [reflexivity |].
  destruct (setter_frame (TH := example_header) S_SignalVariant m m'
              0%nat 1 ltac:(simpl; lia) eq_refl)
    as (Hlen & Hother & x & y & Hx & Hy & Hsame & _).
  split; [exact Hlen |]. split; [exact Hother |].
  exists x, y. split; [exact Hx |]. split; [exact Hy | exact Hsame].
Defined.

Example SetSignalType_on_signals :
  SetSignalType (TH := example_header)
    [mkTile 0x10 0 0 0 0x04 0x41] 0%nat SIGTYPE_COMBO
  = Ok [mkTile 0x10 0 0 0 0x07 0x41].
Proof. reflexivity. Qed.

Lemma discriminant_checks_witness :
  let m := [mkTile 0x10 0 0 0x21 0x04 0xC2] in
  GetSignalType (TH := example_header) m 0%nat = AssertFail /\
  SetSignalType (TH := example_header) m 0%nat SIGTYPE_EXIT = AssertFail /\
  GetRailType m 0%nat = Ok RAILTYPE_ELECTRIC /\
  GetTrackBits m 0%nat = Ok 2.
Proof.
  intros m.
  destruct (discriminant_checks (TH := example_header) m 0%nat
              (mkTile 0x10 0 0 0x21 0x04 0xC2) SIGTYPE_EXIT eq_refl)
    as (Hguard & Hrt & _ & _ & Htb & _).
  destruct Hguard as [Hg Hs]; [right; discriminate |].
  split; [exact Hg |]. split; [exact Hs |].
  split; [exact Hrt | exact Htb].
Defined.

(** C4, as stated, fails: on a depot tile (rail tile type
    [RAIL_TYPE_DEPOT_WAYPOINT], not [RAIL_TYPE_SIGNALS]) the signal variant
    accessors and the track bits accessor do not end in an assertion
    failure; they return a value, and the setter stores into [m4]. *)
Lemma unguarded_accessors_counterexample :
  let m := [mkTile 0x10 0 0 0x21 0x04 0xC2] in
  GetRailTileType (TH := example_header) m 0%nat = Ok RAIL_TYPE_DEPOT_WAYPOINT /\
  RAIL_TYPE_DEPOT_WAYPOINT <> RAIL_TYPE_SIGNALS /\
  GetSignalVariant m 0%nat = Ok SIG_SEMAPHORE /\
  GetSignalVariant m 0%nat <> AssertFail /\
  SetSignalVariant m 0%nat SIG_ELECTRIC = Ok [mkTile 0x10 0 0 0x21 0x00 0xC2] /\
  GetTrackBits m 0%nat = Ok TRACK_BIT_Y /\
  GetTrackBits m 0%nat <> AssertFail.
Proof. repeat split; discriminate. Qed.

End RailMapExamples.

(** ** Road vehicles *)

Section RoadVehFacts.
Import RoadVeh.
Context `{VH : VehicleHeader}.

(** C8. For a vehicle whose type is [VEH_Road], [IsRoadVehInDepot] returns
    a value, and that value is true exactly when the road state is 254. *)
Theorem IsRoadVehInDepot_sentinel (v : Vehicle) :
  type v = VEH_Road ->
  exists b : bool,
    IsRoadVehInDepot v = Ok b /\ (b = true <-> u_road_state v = 254).
Proof.
  intros Hty. exists (u_road_state v =? 254). split.
  - unfold IsRoadVehInDepot. rewrite Hty, Z.eqb_refl. reflexivity.
  - apply Z.eqb_eq.
Qed.

(** The precondition is checked: any other vehicle type ends in the
    assertion failure. *)
Lemma IsRoadVehInDepot_other_type (v : Vehicle) :
  type v <> VEH_Road -> IsRoadVehInDepot v = AssertFail.
Proof.
  intros Hty. unfold IsRoadVehInDepot.
  destruct (Z.eqb_spec (type v) VEH_Road) as [Heq | _];
    [contradiction | reflexivity].
Qed.

End RoadVehFacts.

Section RoadVehExamples.
Import RoadVeh.

Lemma IsRoadVehInDepot_sentinel_witness :
  exists b : bool,
    IsRoadVehInDepot (VH := example_vehicle_header) (mkVehicle 0x11 0 254)
    = Ok b /\
    (b = true <-> 254 = 254).
Proof.
  apply (IsRoadVehInDepot_sentinel (VH := example_vehicle_header)
           (mkVehicle 0x11 0 254)).
  reflexivity.
Defined.

Example road_vehicle_on_the_road :
  IsRoadVehInDepot (VH := example_vehicle_header) (mkVehicle 0x11 0 253)
  = Ok false.
Proof. reflexivity. Qed.

Example road_vehicle_in_depot_stopped :
  IsRoadVehInDepotStopped (VH := example_vehicle_header) (mkVehicle 0x11 0x03 254)
  = Ok true.
Proof. reflexivity. Qed.

End RoadVehExamples.

(** ** Filling a buffer with random bytes *)

Section RandomBytesFacts.
Import Random.
Variable E : Externals.

Lemma fallback_body_keeps_log (i : Z) (s : State) (b : Buffer) :
  warned_once (fst (fallback_body E i s b)) = warned_once s /\
  debug_log (fst (fallback_body E i s b)) = debug_log s.
Proof.
  unfold fallback_body, now_ns, InteractiveRandom, Next. simpl.
  split; reflexivity.
Qed.

Lemma fallback_body_writes (i : Z) (s : State) (b : Buffer) :
  written (snd (fallback_body E i s b)) i /\
  (forall k, k <> i -> snd (fallback_body E i s b) k = b k).
Proof.
  unfold fallback_body, now_ns, InteractiveRandom, Next. simpl.
  unfold buf_write, written. split.
  - rewrite Z.eqb_refl. eexists; reflexivity.
  - intros k Hk. destruct (Z.eqb_spec k i); [contradiction | reflexivity].
Qed.

(** The two equations of the loop. *)
Lemma fallback_loop_0 (size i : Z) (s : State) (b : Buffer) :
  fallback_loop E 0 size i s b
  = if i <? size then Running s b else Returned s b.
Proof. reflexivity. Qed.

Lemma fallback_loop_S (fuel : nat) (size i : Z) (s : State) (b : Buffer) :
  fallback_loop E (S fuel) size i s b
  = if i <? size
    then fallback_loop E fuel size (u32 (i + 1))
           (fst (fallback_body E i s b)) (snd (fallback_body E i s b))
    else Returned s b.
Proof.
  cbn [fallback_loop]. destruct (i <? size); [| reflexivity].
  destruct (fallback_body E i s b). reflexivity.
Qed.

(** The loop touches neither the flag nor the log. *)
Lemma fallback_loop_keeps_log (fuel : nat) :
  forall (size i : Z) (s : State) (b : Buffer),
    warned_once (outcome_state (fallback_loop E fuel size i s b))
    = warned_once s /\
    debug_log (outcome_state (fallback_loop E fuel size i s b))
    = debug_log s.
Proof.
  induction fuel as [| fuel IH]; intros size i s b.
  - rewrite fallback_loop_0. destruct (i <? size); split; reflexivity.
  - rewrite fallback_loop_S. destruct (i <? size); [| split; reflexivity].
    destruct (fallback_body_keeps_log i s b) as [Hw Hl].
    destruct (IH size (u32 (i + 1)) (fst (fallback_body E i s b))
                (snd (fallback_body E i s b))) as [Hw' Hl'].
    split; congruence.
Qed.

(** With a bound that a 32-bit counter can reach, the loop started at [i]
    returns after [size - i] passes, having written every byte from [i] on
    and kept what was written before. *)
Lemma fallback_loop_returns (n : nat) :
  forall (fuel : nat) (size i : Z) (s : State) (b : Buffer),
    0 <= i <= size -> size < 2 ^ 32 ->
    n = Z.to_nat (size - i) -> (n <= fuel)%nat ->
    exists s' b',
      fallback_loop E fuel size i s b = Returned s' b' /\
      (forall k, i <= k < size -> written b' k) /\
      (forall k, written b k -> written b' k).
Proof.
  induction n as [| n IH]; intros fuel size i s b Hi Hsize Hn Hfuel.
  - assert (i = size) by lia. subst i.
    exists s, b. split.
    + destruct fuel; [rewrite fallback_loop_0 | rewrite fallback_loop_S];
        rewrite Z.ltb_irrefl; reflexivity.
    + split; [intros k Hk; lia | auto].
  - assert (Hlt : i < size) by lia.
    destruct fuel as [| fuel]; [lia |]. rewrite fallback_loop_S.
    replace (i <? size) with true by (symmetry; apply Z.ltb_lt; exact Hlt).
    destruct (fallback_body_writes i s b) as [Hwi Hwo].
    rewrite u32_small by lia.
    destruct (IH fuel size (i + 1) (fst (fallback_body E i s b))
                (snd (fallback_body E i s b)))
      as (s' & b' & Hrun & Hnew & Hold); try lia.
    exists s', b'. split; [exact Hrun |]. split.
    + intros k Hk. destruct (Z.eq_dec k i) as [-> | Hne].
      * apply Hold. exact Hwi.
      * apply Hnew. lia.
    + intros k Hk. apply Hold.
      destruct (Z.eq_dec k i) as [-> | Hne]; [exact Hwi |].
      unfold written. rewrite Hwo by exact Hne. exact Hk.
Qed.

(** With a bound of [2^32] or more the counter wraps before it reaches the
    bound: whatever the fuel, the loop is still running, and no byte at
    index [2^32] or beyond has been touched. *)
Lemma fallback_loop_never_returns (fuel : nat) :
  forall (size i : Z) (s : State) (b : Buffer),
    2 ^ 32 <= size -> 0 <= i < 2 ^ 32 ->
    exists s' b',
      fallback_loop E fuel size i s b = Running s' b' /\
      (forall k, 2 ^ 32 <= k -> b' k = b k).
Proof.
  induction fuel as [| fuel IH]; intros size i s b Hsize Hi;
    [rewrite fallback_loop_0 | rewrite fallback_loop_S];
    replace (i <? size) with true by (symmetry; apply Z.ltb_lt; lia).
  - exists s, b. split; [reflexivity | auto].
  - destruct (fallback_body_writes i s b) as [_ Hwo].
    destruct (IH size (u32 (i + 1)) (fst (fallback_body E i s b))
                (snd (fallback_body E i s b)) Hsize (u32_range _))
      as (s' & b' & Hrun & Hsame).
    exists s', b'. split; [exact Hrun |].
    intros k Hk. rewrite Hsame by exact Hk. apply Hwo. lia.
Qed.

Lemma os_write_written (o : OsCall) (n : Z) (b : Buffer) (k : Z) :
  0 <= k < n -> written (os_write o n b) k.
Proof.
  intros Hk. unfold written, os_write.
  replace ((0 <=? k) && (k <? n)) with true; [eexists; reflexivity |].
  symmetry. apply andb_true_iff. split; [apply Z.leb_le | apply Z.ltb_lt]; lia.
Qed.

(** For a buffer that a 32-bit counter can index, on every platform branch
    of the model and whatever the operating system answers, the call
    returns (one unit of fuel per byte is enough) and every byte of the
    buffer has been written. On the browser branch the model covers the
    requests the browser accepts, of at most 65536 bytes. *)
Lemma RandomBytesWithFallback_fills
    (p : Platform) (o : OsCall) (fuel : nat) (size : Z) (s : State) :
  0 <= size < 2 ^ 32 -> (Z.to_nat size <= fuel)%nat ->
  exists s' b',
    RandomBytesWithFallback E p o fuel size s = Returned s' b' /\
    (forall k, 0 <= k < size -> written b' k).
Proof.
  intros Hsize Hfuel. unfold RandomBytesWithFallback.
  destruct (crypto_source p o size unwritten) as [done b] eqn:Hsrc.
  destruct done.
  - exists s, b. split; [reflexivity |]. intros k Hk.
    destruct p; simpl in Hsrc.
    + destruct (0 <=? os_res o); inversion Hsrc; subst.
      apply os_write_written. rewrite u32_small by lia. exact Hk.
    + inversion Hsrc; subst. apply os_write_written. exact Hk.
    + destruct (Z.ltb_spec 0 (os_res o)) as [Hpos | Hneg];
        simpl in Hsrc; [| discriminate Hsrc].
      destruct (Z.eqb_spec (u64 (os_res o)) size) as [Heq | Hne];
        inversion Hsrc; subst.
      apply os_write_written. split; [lia |].
      unfold u64, wrap in Hk.
      pose proof (Z.mod_le (os_res o) (2 ^ 64) ltac:(lia) ltac:(lia)). lia.
    + destruct (js_crypto o); simpl in Hsrc; inversion Hsrc; subst.
      apply os_write_written. exact Hk.
    + discriminate Hsrc.
  - simpl.
    destruct (fallback_loop_returns (Z.to_nat (size - 0)) fuel size 0
                (DEBUG_misc (if warned_once s then 1 else 0) fallback_message
                   (snd (exchange true s))) b)
      as (s' & b' & Hrun & Hnew & _); try lia.
    exists s', b'. split; [exact Hrun | exact Hnew].
Qed.

(** C2, at a buffer of [2^32 + 1] bytes. On the Windows branch the length
    handed to [BCryptGenRandom] is narrowed to 1: the call succeeds, the
    function returns, and only byte 0 has been written. On a build without a
    cryptographic source the 32-bit loop counter wraps before it reaches the
    length: whatever the fuel the function has not returned, and the last
    byte has not been written. *)
Theorem RandomBytesWithFallback_large_buffer
    (data : Z -> Z) (fuel : nat) (s : State) :
  let size := 2 ^ 32 + 1 in
  let o := {| os_res := 0; os_bytes := data; js_crypto := false |} in
  (exists b,
     RandomBytesWithFallback E Windows o fuel size s = Returned s b /\
     written b 0 /\ b 1 = None /\ b (2 ^ 32) = None) /\
  (exists s' b',
     RandomBytesWithFallback E NoCryptoSource o fuel size s = Running s' b' /\
     b' (2 ^ 32) = None).
Proof.
  intros size o. split.
  - eexists. split; [reflexivity |].
    split; [eexists; reflexivity | split; reflexivity].
  - unfold RandomBytesWithFallback. cbn [crypto_source].
    destruct (fallback_loop_never_returns fuel size 0
                (DEBUG_misc (if warned_once s then 1 else 0) fallback_message
                   (snd (exchange true s))) unwritten)
      as (s' & b' & Hrun & Hsame); [subst size; lia | lia |].
    exists s', b'. split; [exact Hrun |].
    rewrite Hsame by lia. reflexivity.
Qed.

(** What one call does to the flag and the log: nothing when the platform
    branch returned; otherwise the flag is set and one message is appended,
    at level 0 when the flag was clear and at level 1 when it was set. This
    holds whether or not the loop that follows has finished. *)
Lemma RandomBytesWithFallback_log
    (p : Platform) (o : OsCall) (fuel : nat) (size : Z) (s : State) :
  let r := RandomBytesWithFallback E p o fuel size s in
  if fst (crypto_source p o size unwritten)
  then r = Returned s (snd (crypto_source p o size unwritten))
  else warned_once (outcome_state r) = true /\
       debug_log (outcome_state r)
       = debug_log s ++ [(if warned_once s then 1 else 0, fallback_message)].
Proof.
  unfold RandomBytesWithFallback.
  destruct (crypto_source p o size unwritten) as [done b].
  destruct done; cbn [fst snd]; [reflexivity |].
  cbn [exchange].
  match goal with
  | |- context [fallback_loop E fuel size 0 ?s2 b] =>
      destruct (fallback_loop_keeps_log fuel size 0 s2 b) as [Hw Hl]
  end.
  split; [rewrite Hw | rewrite Hl]; reflexivity.
Qed.

Lemma expected_levels_snoc (n : nat) :
  expected_levels n ++ [if (0 <? n)%nat then 1 else 0] = expected_levels (S n).
Proof.
  destruct n as [| n]; [reflexivity |]. simpl.
  f_equal. symmetry. apply repeat_cons.
Qed.

Lemma expected_levels_zeros (n : nat) :
  (count_occ Z.eq_dec (expected_levels n) 0%Z <= 1)%nat.
Proof.
  destruct n as [| n]; simpl; [lia |].
  rewrite (proj1 (count_occ_not_In Z.eq_dec (repeat 1 n) 0%Z)); [lia |].
  intros Hin. apply repeat_spec in Hin. discriminate Hin.
Qed.

Lemma call_keeps_logged
    (p : Platform) (c : Call) (n : nat) (s : State) :
  logged n s ->
  logged (if reaches_fallback p c then S n else n)
    (outcome_state
       (RandomBytesWithFallback E p (call_os c) (call_fuel c) (call_size c) s)).
Proof.
  intros [Hflag Hlev].
  pose proof (RandomBytesWithFallback_log p (call_os c) (call_fuel c)
                (call_size c) s) as Hcall.
  unfold reaches_fallback. cbv zeta in Hcall.
  destruct (fst (crypto_source p (call_os c) (call_size c) unwritten)).
  - rewrite Hcall. cbn. split; assumption.
  - destruct Hcall as [Hw Hl]. cbn [negb]. split; [exact Hw |].
    unfold levels in *. rewrite Hl, map_app, Hlev, Hflag. cbn [map fst].
    apply expected_levels_snoc.
Qed.

Lemma run_calls_logged (p : Platform) (cs : list Call) :
  forall (n : nat) (s : State),
    logged n s ->
    exists k : nat,
      (k <= length (filter (fun c => reaches_fallback p c = true) cs))%nat /\
      logged (n + k) (run_calls E p cs s) /\
      (Forall fuelled cs ->
       k = length (filter (fun c => reaches_fallback p c = true) cs)).
Proof.
  induction cs as [| c cs IH]; intros n s Hs.
  - exists 0%nat. cbn. rewrite Nat.add_0_r. repeat split; [lia | apply Hs ..].
  - pose proof (call_keeps_logged p c n s Hs) as Hc.
    cbn [run_calls]. rewrite filter_cons.
    destruct (RandomBytesWithFallback E p (call_os c) (call_fuel c)
                (call_size c) s) as [s' b' | s' b'] eqn:Hrun;
      cbn [outcome_state] in Hc.
    + destruct (IH _ s' Hc) as (k & Hk & Hlog & Hall).
      destruct (reaches_fallback p c) eqn:Hreach.
      * rewrite decide_True by reflexivity.
        exists (S k). cbn [length].
        replace (n + S k)%nat with (S n + k)%nat by lia.
        split; [lia |]. split; [exact Hlog |].
        intros Hf. inversion Hf; subst. f_equal. auto.
      * rewrite decide_False by discriminate.
        exists k. split; [exact Hk |]. split; [exact Hlog |].
        intros Hf. inversion Hf; subst. auto.
    + assert (Hreach : reaches_fallback p c = true).
      { unfold reaches_fallback.
        pose proof (RandomBytesWithFallback_log p (call_os c) (call_fuel c)
                      (call_size c) s) as Hcall.
        cbv zeta in Hcall. rewrite Hrun in Hcall.
        destruct (fst (crypto_source p (call_os c) (call_size c) unwritten));
          [discriminate Hcall | reflexivity]. }
      rewrite Hreach in Hc. rewrite Hreach, decide_True by reflexivity.
      exists 1%nat. cbn [length].
      replace (n + 1)%nat with (S n) by lia.
      split; [lia |]. split; [exact Hc |].
      intros Hf. inversion Hf as [| ? ? [Hsz Hfu] _]; subst.
      destruct (RandomBytesWithFallback_fills p (call_os c) (call_fuel c)
                  (call_size c) s Hsz Hfu) as (s1 & b1 & Hret & _).
      congruence.
Qed.

(** C9. From the state of a freshly started program, after any sequence of
    calls the log holds the warning once per call that took the fallback
    and was reached: the first at level 0, every later one at level 1; so
    level 0 occurs at most once. The flag is set exactly when some call
    took the fallback. When every call returns, the messages number exactly
    the calls that took the fallback. *)
Theorem warned_once_levels (p : Platform) (cs : list Call) (s : State) :
  initial s ->
  exists k : nat,
    (k <= length (filter (fun c => reaches_fallback p c = true) cs))%nat /\
    levels (run_calls E p cs s) = expected_levels k /\
    warned_once (run_calls E p cs s) = (0 <? k)%nat /\
    (count_occ Z.eq_dec (levels (run_calls E p cs s)) 0%Z <= 1)%nat /\
    (Forall fuelled cs ->
     k = length (filter (fun c => reaches_fallback p c = true) cs)).
Proof.
  intros [Hflag Hlog].
  assert (Hs : logged 0 s).
  { split; [exact Hflag |]. unfold levels. rewrite Hlog. reflexivity. }
  destruct (run_calls_logged p cs 0%nat s Hs) as (k & Hk & [Hw Hl] & Hall).
  exists k. split; [exact Hk |]. split; [exact Hl |].
  split; [exact Hw |]. split; [| exact Hall].
  rewrite Hl. apply expected_levels_zeros.
Qed.

End RandomBytesFacts.

Section RandomBytesExamples.
Import Random.

Example fallback_fills_two_bytes :
  let r := RandomBytesWithFallback example_externals NoCryptoSource
             {| os_res := 0; os_bytes := fun _ => 0; js_crypto := false |}
             2 2 example_state in
  (exists s b, r = Returned s b) /\
  outcome_buffer r 0 = Some 171 /\
  outcome_buffer r 1 = Some 113 /\
  outcome_buffer r 2 = None /\
  levels (outcome_state r) = [0].
Proof.
  split; [eexists _, _; vm_compute; reflexivity |].
  vm_compute. repeat split.
Qed.

Example partial_getrandom_is_overwritten :
  let r := RandomBytesWithFallback example_externals Glibc
             {| os_res := 1; os_bytes := fun k => 0xB0 + k; js_crypto := false |}
             2 2 example_state in
  outcome_buffer r 0 = Some 171 /\ outcome_buffer r 1 = Some 113.
Proof. vm_compute. split; reflexivity. Qed.

Example example_calls_levels :
  levels (run_calls example_externals Glibc example_calls example_state)
  = [0; 1].
Proof. vm_compute. reflexivity. Qed.

Lemma warned_once_levels_witness :
  exists k : nat,
    (k <= length (filter (fun c => reaches_fallback Glibc c = true)
                    example_calls))%nat /\
    levels (run_calls example_externals Glibc example_calls example_state)
    = expected_levels k /\
    warned_once (run_calls example_externals Glibc example_calls example_state)
    = (0 <? k)%nat /\
    (count_occ Z.eq_dec
       (levels (run_calls example_externals Glibc example_calls example_state))
       0%Z <= 1)%nat /\
    (Forall fuelled example_calls ->
     k = length (filter (fun c => reaches_fallback Glibc c = true)
                   example_calls)).
Proof.
  apply (warned_once_levels example_externals Glibc example_calls
           example_state).
  split; reflexivity.
Defined.

End RandomBytesExamples.

(** ** Interleaved threads *)

Section Interleaving.
Import Random.

Lemma pending_insert (pcs : list Pc) :
  forall (t : nat) (pc pc' : Pc),
    pcs !! t = Some pc ->
    (pending (<[t := pc']> pcs) + (if holds_clear pc then 1 else 0)
     = pending pcs + (if holds_clear pc' then 1 else 0))%nat.
Proof.
  induction pcs as [| q pcs IH]; intros t pc pc' Ht; [discriminate Ht |].
  destruct t as [| t]; simpl in *.
  - injection Ht as ->. lia.
  - specialize (IH t pc pc' Ht). lia.
Qed.

Lemma pending_replicate (n : nat) : pending (replicate n AtExchange) = 0%nat.
Proof. induction n as [| n IH]; simpl; [reflexivity | exact IH]. Qed.

Lemma full_detail_DEBUG (level : Z) (msg : string) (s : State) :
  full_detail (DEBUG_misc level msg s)
  = (full_detail s + (if Z.eq_dec level 0%Z then 1 else 0))%nat.
Proof.
  unfold full_detail, levels, DEBUG_misc. cbn [debug_log].
  rewrite map_app, count_occ_app. cbn [map fst count_occ].
  destruct (Z.eq_dec level 0); reflexivity.
Qed.

Lemma thread_step_keeps (pcs : list Pc) (s : State) (t : nat) (pc : Pc) :
  at_most_one pcs s -> pcs !! t = Some pc ->
  at_most_one (<[t := fst (thread_step pc s)]> pcs) (snd (thread_step pc s)).
Proof.
  unfold at_most_one. intros Hinv Ht.
  pose proof (pending_insert pcs t pc (fst (thread_step pc s)) Ht) as Hp.
  destruct pc as [| hw |]; cbn [thread_step exchange fst snd] in *.
  - change (full_detail _) with (full_detail s).
    cbn [warned_once]. destruct (warned_once s); cbn [holds_clear] in Hp; lia.
  - rewrite full_detail_DEBUG. cbn [DEBUG_misc warned_once].
    destruct hw; cbn [holds_clear] in Hp;
      destruct (Z.eq_dec _ 0) as [He | He]; try discriminate He;
      try (exfalso; apply He; reflexivity); lia.
  - cbn [holds_clear] in Hp. lia.
Qed.

Lemma interleave_keeps (sched : list nat) :
  forall (pcs : list Pc) (s : State),
    at_most_one pcs s ->
    at_most_one (fst (interleave sched pcs s)) (snd (interleave sched pcs s)).
Proof.
  induction sched as [| t sched IH]; intros pcs s Hinv; [exact Hinv |].
  cbn [interleave]. destruct (pcs !! t) as [pc |] eqn:Ht; [| apply IH, Hinv].
  pose proof (thread_step_keeps pcs s t pc Hinv Ht) as Hstep.
  destruct (thread_step pc s) as [pc' s']. apply IH, Hstep.
Qed.

(** X21. However the steps of any number of threads entering the fallback
    are interleaved, the warning is logged at level 0 at most once. *)
Lemma interleaved_full_detail_once (sched : list nat) (n : nat) (s : State) :
  initial s ->
  (full_detail (snd (interleave sched (replicate n AtExchange) s)) <= 1)%nat.
Proof.
  intros [Hflag Hlog].
  assert (Hinv : at_most_one (replicate n AtExchange) s).
  { unfold at_most_one, full_detail, levels.
    rewrite pending_replicate, Hflag, Hlog. simpl. lia. }
  pose proof (interleave_keeps sched _ _ Hinv) as Hend.
  unfold at_most_one in Hend.
  set (r := interleave sched (replicate n AtExchange) s) in *.
  destruct (warned_once (snd r)); lia.
Qed.

Example two_threads_race :
  levels (snd (interleave [0; 1; 1; 0]%nat [AtExchange; AtExchange]
                 example_state))
  = [1; 0].
Proof. reflexivity. Qed.

End Interleaving.

(** * Further properties of the code *)

(** ** More about the bit macros *)

Section MoreMacroFacts.

Lemma GB_range x s n : 0 <= n -> 0 <= GB x s n < 2 ^ n.
Proof.
  intros Hn. unfold GB. rewrite Z.land_ones by lia.
  apply Z.mod_pos_bound. apply Z.pow_pos_nonneg; lia.
Qed.

(** [GB] depends on the bits of its field only. *)
Lemma GB_ext x y s n :
  0 <= s -> 0 <= n ->
  (forall i, s <= i < s + n -> Z.testbit x i = Z.testbit y i) ->
  GB x s n = GB y s n.
Proof.
  intros Hs Hn Hbits. apply Z.bits_inj'. intros i Hi.
  rewrite !testbit_GB by lia.
  destruct (Z.ltb_spec i n) as [Hin | Hout]; simpl; [| reflexivity].
  apply Hbits. lia.
Qed.

Lemma testbit_u8_SB x s n d i :
  0 <= s -> 0 <= n -> 0 <= i ->
  Z.testbit (u8 (SB x s n d)) i
  = (i <? 8) &&
    (if (s <=? i) && (i <? s + n) then Z.testbit d (i - s)
     else Z.testbit x i).
Proof.
  intros Hs Hn Hi. unfold u8. rewrite testbit_wrap, testbit_SB by lia.
  reflexivity.
Qed.

(** Writing a field twice leaves what the second write alone leaves. *)
Lemma SB_SB_byte x s n d1 d2 :
  0 <= s -> 0 <= n ->
  u8 (SB (u8 (SB x s n d1)) s n d2) = u8 (SB x s n d2).
Proof.
  intros Hs Hn. apply Z.bits_inj'. intros i Hi.
  rewrite !testbit_u8_SB by lia.
  destruct (i <? 8); simpl; [| reflexivity].
  destruct ((s <=? i) && (i <? s + n)); reflexivity.
Qed.


(** A field read after a write to a field that covers it. *)
Lemma GB_SB_inside x s n d s' n' :
  0 <= s -> 0 <= n -> 0 <= n' -> s + n <= 8 ->
  s <= s' -> s' + n' <= s + n ->
  GB (u8 (SB x s n d)) s' n' = GB d (s' - s) n'.
Proof.
  intros Hs Hn Hn' Hw Hlo Hhi. apply Z.bits_inj'. intros i Hi.
  rewrite !testbit_GB by lia.
  destruct (Z.ltb_spec i n') as [Hin | Hout]; simpl; [| reflexivity].
  rewrite testbit_u8_SB by lia.
  replace (i + s' <? 8) with true by (symmetry; apply Z.ltb_lt; lia).
  replace ((s <=? i + s') && (i + s' <? s + n)) with true
    by (symmetry; apply andb_true_iff; split;
        [apply Z.leb_le | apply Z.ltb_lt]; lia).
  simpl. f_equal. lia.
Qed.

(** Masking with the two top bits of a byte looks at bits 6 and 7 only. *)
Lemma land_C0_ext x y :
  Z.testbit x 6 = Z.testbit y 6 -> Z.testbit x 7 = Z.testbit y 7 ->
  Z.land x 0xC0 = Z.land y 0xC0.
Proof.
  intros H6 H7. apply Z.bits_inj'. intros i Hi.
  rewrite !Z.land_spec.
  change 0xC0 with (Z.shiftl (Z.ones 2) 6).
  rewrite Z.shiftl_spec by lia.
  destruct (Z.eq_dec i 6) as [-> | N6]; [rewrite H6; reflexivity |].
  destruct (Z.eq_dec i 7) as [-> | N7]; [rewrite H7; reflexivity |].
  replace (Z.testbit (Z.ones 2) (i - 6)) with false;
    [rewrite !andb_false_r; reflexivity |].
  symmetry. destruct (Z.ltb_spec i 6).
  - apply Z.testbit_neg_r. lia.
  - apply Z.ones_spec_high. lia.
Qed.

Lemma land_C0_values x :
  Z.land x 0xC0 = 0 \/ Z.land x 0xC0 = 0x40 \/
  Z.land x 0xC0 = 0x80 \/ Z.land x 0xC0 = 0xC0.
Proof.
  assert (H : Z.land x 0xC0 = Z.shiftl (GB x 6 2) 6).
  { apply Z.bits_inj'. intros i Hi.
    rewrite Z.land_spec, Z.shiftl_spec by lia.
    change 0xC0 with (Z.shiftl (Z.ones 2) 6).
    rewrite Z.shiftl_spec by lia.
    destruct (Z.ltb_spec i 6) as [Hlo | Hhi].
    - rewrite !(Z.testbit_neg_r _ (i - 6)) by lia. apply andb_false_r.
    - rewrite testbit_GB by lia.
      rewrite Z.testbit_ones_nonneg by lia.
      replace (i - 6 + 6) with i by lia. apply andb_comm. }
  rewrite H. pose proof (GB_range x 6 2 ltac:(lia)) as Hr.
  assert (Hc : GB x 6 2 = 0 \/ GB x 6 2 = 1 \/ GB x 6 2 = 2 \/ GB x 6 2 = 3)
    by lia.
  destruct Hc as [-> | [-> | [-> | ->]]]; simpl; auto.
Qed.

End MoreMacroFacts.

(** ** More about the rail tile accessors *)

Section RailMapMore.
Import RailMap.
Context `{TH : TileHeader}.

Lemma bind_Ok {A B : Type} (r : result A) (f : A -> result B) (b : B) :
  r ≫= f = Ok b -> exists a, r = Ok a /\ f a = Ok b.
Proof.
  destruct r as [a | |]; simpl; intros H; try discriminate H.
  exists a. split; [reflexivity | exact H].
Qed.

Lemma run_getter_at (g : Getter) (m : Map) (t : TileIndex) (x : Tile) :
  m !! t = Some x ->
  run_getter g m t
  = Ok (GB (field (getter_field g) x)
           (fst (getter_range g)) (snd (getter_range g))).
Proof.
  intros Hx. pose proof (tile_at_Some _ _ _ Hx) as Hat.
  destruct g; simpl;
    unfold GetRailType, GetRailTypeCrossing, GetRailTypeOnBridge,
           GetTrackBits, GetRailDepotDirection, GetSignalVariant;
    rewrite Hat; reflexivity.
Qed.


Lemma GetRailTileType_inv (m : Map) (t : TileIndex) (ty : Z) :
  GetRailTileType m t = Ok ty ->
  IsTileType m t MP_RAILWAY = true /\
  exists x, m !! t = Some x /\ ty = rail_tile_type_bits x.
Proof.
  unfold GetRailTileType. intros H.
  destruct (IsTileType m t MP_RAILWAY); simpl in H; [| discriminate H].
  split; [reflexivity |].
  destruct (tile_at m t) as [x | |] eqn:Hat; simpl in H; try discriminate H.
  injection H as <-. exists x. split; [apply tile_at_Ok, Hat | reflexivity].
Qed.

Lemma SetSignalType_inv (m m' : Map) (t : TileIndex) (v : Z) :
  SetSignalType m t v = Ok m' ->
  exists x, m !! t = Some x /\
    GetRailTileType m t = Ok RAIL_TYPE_SIGNALS /\
    rail_tile_type_bits x = RAIL_TYPE_SIGNALS /\
    m' = store m t (with_m4 x (SB (m4 x) 0 2 v)).
Proof.
  unfold SetSignalType. intros H.
  destruct (GetRailTileType m t) as [ty | |] eqn:Hty; simpl in H;
    try discriminate H.
  destruct (GetRailTileType_inv m t ty Hty) as (_ & x & Hx & Hbits).
  destruct (Z.eqb_spec ty RAIL_TYPE_SIGNALS) as [-> | _]; simpl in H;
    [| discriminate H].
  rewrite (tile_at_Some _ _ _ Hx) in H. simpl in H. injection H as <-.
  exists x. repeat split; [exact Hx | symmetry; exact Hbits].
Qed.

(** The assertion of the two guarded accessors fails on a tile whose tag
    is not [RAIL_TYPE_SIGNALS]. *)
Lemma signal_guard_fails (m : Map) (t : TileIndex) (x : Tile) (s : Z) :
  m !! t = Some x -> rail_tile_type_bits x <> RAIL_TYPE_SIGNALS ->
  GetSignalType m t = AssertFail /\ SetSignalType m t s = AssertFail.
Proof.
  intros Hx Hne. unfold GetSignalType, SetSignalType, GetRailTileType.
  destruct (IsTileType m t MP_RAILWAY); simpl; [| split; reflexivity].
  rewrite (tile_at_Some _ _ _ Hx). simpl.
  destruct (Z.eqb_spec (Z.land (m5 x) RAIL_TILE_TYPE_MASK) RAIL_TYPE_SIGNALS)
    as [Heq | _]; [contradiction | split; reflexivity].
Qed.

(** X1. What a setter without assertion stores, its getter reads back:
    for a value inside the field, the getter on the new map returns the
    value. *)
Theorem setter_getter_roundtrip
    (s : Setter) (g : Getter) (m m' : Map) (t : TileIndex) (v : Z) :
  getter_of s = Some g ->
  0 <= v < 2 ^ snd (setter_range s) ->
  run_setter s m t v = Ok m' ->
  run_getter g m' t = Ok v.
Proof.
  intros Hg Hv Hrun.
  destruct (run_setter_Ok s m m' t v Hrun) as (x & Hx & ->).
  rewrite (run_getter_at g _ t _ (store_same m t x _ Hx)).
  destruct s; simpl in Hg; inversion Hg; subst g; simpl in *;
    rewrite GB_SB_byte by lia; f_equal; apply Z.mod_small; exact Hv.
Qed.

(** X2. On a signals tile that is still a railway tile after the store,
    [GetSignalType] returns the value [SetSignalType] stored. *)
Theorem SetSignalType_GetSignalType
    (m m' : Map) (t : TileIndex) (v : Z) :
  0 <= v < 4 ->
  SetSignalType m t v = Ok m' ->
  IsTileType m' t MP_RAILWAY = true ->
  GetSignalType m' t = Ok v.
Proof.
  intros Hv Hset Hty.
  destruct (SetSignalType_inv m m' t v Hset) as (x & Hx & _ & Hbits & ->).
  pose proof (store_same m t x (with_m4 x (SB (m4 x) 0 2 v)) Hx) as Hy.
  unfold GetSignalType.
  rewrite (GetRailTileType_Ok _ t _ Hy Hty). simpl.
  fold RAIL_TILE_TYPE_MASK. fold (rail_tile_type_bits x).
  rewrite Hbits. simpl. rewrite (tile_at_Some _ _ _ Hy). simpl.
  rewrite GB_SB_byte by lia. f_equal. apply Z.mod_small. exact Hv.
Qed.

(** X3. The getters return values of their field's width: below
    [2 ^ width] for the six plain getters, below 4 for [GetSignalType], one
    of the four enumerators for [GetRailTileType], and [TRACK_X] or
    [TRACK_Y] for [GetRailWaypointTrack]. *)
Theorem getter_bounds (m : Map) (t : TileIndex) (v : Z) :
  (forall g, run_getter g m t = Ok v -> 0 <= v < 2 ^ snd (getter_range g)) /\
  (GetSignalType m t = Ok v -> 0 <= v < 4) /\
  (GetRailTileType m t = Ok v ->
   v = RAIL_TYPE_NORMAL \/ v = RAIL_TYPE_SIGNALS \/
   v = RAIL_TYPE_UNUSED \/ v = RAIL_TYPE_DEPOT_WAYPOINT) /\
  (GetRailWaypointTrack m t = Ok v -> v = TRACK_X \/ v = TRACK_Y).
Proof.
  split; [| split; [| split]].
  - intros g Hg. destruct (m !! t) as [x |] eqn:Hx.
    + rewrite (run_getter_at g m t x Hx) in Hg. injection Hg as <-.
      apply GB_range. destruct g; simpl; lia.
    + exfalso. destruct g; simpl in Hg;
        unfold GetRailType, GetRailTypeCrossing, GetRailTypeOnBridge,
               GetTrackBits, GetRailDepotDirection, GetSignalVariant,
               tile_at in Hg;
        rewrite Hx in Hg; discriminate Hg.
  - unfold GetSignalType. intros H.
    destruct (bind_Ok _ _ _ H) as (ty & _ & H1).
    destruct (bind_Ok _ _ _ H1) as (u & _ & H2).
    destruct (bind_Ok _ _ _ H2) as (x & _ & H3).
    injection H3 as <-. apply (GB_range _ 0 2). lia.
  - intros H. destruct (GetRailTileType_inv m t v H) as (_ & x & _ & ->).
    unfold rail_tile_type_bits, RAIL_TILE_TYPE_MASK, RAIL_TYPE_NORMAL,
      RAIL_TYPE_SIGNALS, RAIL_TYPE_UNUSED, RAIL_TYPE_DEPOT_WAYPOINT.
    apply land_C0_values.
  - unfold GetRailWaypointTrack. intros H.
    destruct (bind_Ok _ _ _ H) as (x & _ & H1). injection H1 as <-.
    destruct (HASBIT (m5 x) 0); [right | left]; reflexivity.
Qed.

(** The tile a returning setter leaves at [t], field by field. *)
Lemma stored_fields (s : Setter) (x : Tile) (w : Z) (f : Field) :
  field f
    (match setter_field s with
     | F_m3 => with_m3 x
     | F_m4 => with_m4 x
     | F_m5 => with_m5 x
     end w)
  = if decide (f = setter_field s) then u8 w else field f x.
Proof. destruct s, f; reflexivity. Qed.

(** X4. No setter called with a value that fits its field changes the
    rail tile type of any tile: the two tag bits of [m5] are the same before
    and after a returning call, also for [SetTrackBits], whose field ends
    just below them. *)
Theorem setters_keep_tile_type
    (s : Setter) (m m' : Map) (t k : TileIndex) (v : Z) (x y : Tile) :
  0 <= v < 2 ^ snd (setter_range s) ->
  run_setter s m t v = Ok m' ->
  m !! k = Some x -> m' !! k = Some y ->
  rail_tile_type_bits y = rail_tile_type_bits x.
Proof.
  intros _ Hrun Hx Hy.
  destruct (run_setter_Ok s m m' t v Hrun) as (x0 & Hx0 & ->).
  destruct (decide (k = t)) as [-> | Hne].
  - rewrite (store_same m t x0 _ Hx0) in Hy. injection Hy as <-.
    rewrite Hx in Hx0. injection Hx0 as <-.
    unfold rail_tile_type_bits, RAIL_TILE_TYPE_MASK.
    change (m5 ?z) with (field F_m5 z). rewrite stored_fields.
    destruct (decide (F_m5 = setter_field s)) as [Heq | _]; [| reflexivity].
    destruct s; try discriminate Heq. simpl.
    apply land_C0_ext; rewrite testbit_u8_SB by lia; reflexivity.
  - rewrite store_other in Hy by exact Hne. congruence.
Qed.


(** X6. Fields of different tile kinds share bits, and the setters do not
    look at the kind: [SetRailTypeCrossing] overwrites the signal variant
    with bit 2 of the rail type, and [SetTrackBits] overwrites the depot
    direction with the two low track bits and the waypoint axis with the
    lowest one. *)
Theorem setters_overwrite_shared_bits (m m' : Map) (t : TileIndex) (v : Z) :
  (SetRailTypeCrossing m t v = Ok m' ->
   GetSignalVariant m' t = Ok (GB v 2 1)) /\
  (SetTrackBits m t v = Ok m' ->
   GetRailDepotDirection m' t = Ok (GB v 0 2) /\
   GetRailWaypointTrack m' t
   = Ok (if Z.testbit v 0 then TRACK_Y else TRACK_X)).
Proof.
  split.
  - intros Hrun.
    destruct (run_setter_Ok S_RailTypeCrossing m m' t v Hrun)
      as (x & Hx & ->).
    unfold GetSignalVariant.
    rewrite (tile_at_Some _ _ _ (store_same m t x _ Hx)).
    simpl. rewrite GB_SB_inside by lia. reflexivity.
  - intros Hrun.
    destruct (run_setter_Ok S_TrackBits m m' t v Hrun) as (x & Hx & ->).
    simpl.
    pose proof (store_same m t x (with_m5 x (SB (m5 x) 0 6 v)) Hx) as Hy.
    split.
    + unfold GetRailDepotDirection. rewrite (tile_at_Some _ _ _ Hy).
      simpl. rewrite GB_SB_inside by lia. reflexivity.
    + unfold GetRailWaypointTrack. rewrite (tile_at_Some _ _ _ Hy).
      cbn [mbind result_bind]. rewrite HASBIT_testbit by lia.
      cbn [m5 with_m5]. rewrite testbit_u8_SB by lia. reflexivity.
Qed.

Lemma store_store (m : Map) (t : TileIndex) (a b : Tile) :
  store (store m t a) t b = store m t b.
Proof. unfold store. apply list_insert_insert_eq. Qed.

(** X7. The last write wins: setting a field twice, with values that
    fit the field, leaves the map that the second call alone leaves. *)
Theorem setter_last_write_wins
    (s : Setter) (m m1 m2 : Map) (t : TileIndex) (v1 v2 : Z) :
  0 <= v1 < 2 ^ snd (setter_range s) ->
  0 <= v2 < 2 ^ snd (setter_range s) ->
  run_setter s m t v1 = Ok m1 ->
  run_setter s m1 t v2 = Ok m2 ->
  run_setter s m t v2 = Ok m2.
Proof.
  intros _ _ H1 H2.
  destruct (run_setter_Ok s m m1 t v1 H1) as (x & Hx & ->).
  destruct (run_setter_Ok s _ m2 t v2 H2) as (y & Hy & ->).
  rewrite (store_same m t x _ Hx) in Hy. injection Hy as <-.
  rewrite store_store.
  assert (Hrun : run_setter s m t v2
                 = Ok (store m t
                         (match setter_field s with
                          | F_m3 => with_m3 x
                          | F_m4 => with_m4 x
                          | F_m5 => with_m5 x
                          end (SB (field (setter_field s) x)
                                  (fst (setter_range s))
                                  (snd (setter_range s)) v2)))).
  { destruct s; simpl;
      try (unfold SetRailType, SetRailTypeCrossing, SetRailTypeOnBridge,
                  SetTrackBits, SetSignalVariant;
           rewrite (tile_at_Some _ _ _ Hx); reflexivity).
    destruct (SetSignalType_inv m _ t v1 H1) as (x' & Hx' & Hty & _ & _).
    unfold SetSignalType. rewrite Hty. simpl.
    rewrite (tile_at_Some _ _ _ Hx). reflexivity. }
  rewrite Hrun. do 2 f_equal.
  destruct s; simpl; unfold with_m3, with_m4, with_m5; simpl;
    rewrite SB_SB_byte by lia; reflexivity.
Qed.

(** X8. [SetCustomWaypointSprite] sets bit 4 of [m3] and
    [ClearCustomWaypointSprite] clears it; both keep the other seven bits
    of the byte, so [GetRailType] is unchanged, while the rail type on a
    bridge, which owns bit 4, gets its lowest bit set or cleared. *)
Theorem custom_waypoint_sprite_bit (m m' : Map) (t : TileIndex) (on : bool) :
  (if on then SetCustomWaypointSprite m t
   else ClearCustomWaypointSprite m t) = Ok m' ->
  exists x y : Tile,
    m !! t = Some x /\ m' !! t = Some y /\
    same_except F_m3 x y /\
    Z.testbit (m3 y) 4 = on /\
    (forall i, 0 <= i < 8 -> i <> 4 ->
       Z.testbit (m3 y) i = Z.testbit (m3 x) i) /\
    GetRailType m' t = GetRailType m t /\
    (forall k : TileIndex, k <> t -> m' !! k = m !! k).
Proof.
  intros Hrun.
  assert (Hshape : exists x, m !! t = Some x /\
            m' = store m t
                   (with_m3 x (if on then SETBIT (m3 x) 4
                               else CLRBIT (m3 x) 4))).
  { destruct on;
      unfold SetCustomWaypointSprite, ClearCustomWaypointSprite in Hrun;
      destruct (bind_Ok _ _ _ Hrun) as (x & Hat & Hok);
      injection Hok as <-; exists x;
      (split; [apply tile_at_Ok, Hat | reflexivity]). }
  destruct Hshape as (x & Hx & ->).
  assert (Hbit : forall i, 0 <= i < 8 ->
            Z.testbit (u8 (if on then SETBIT (m3 x) 4 else CLRBIT (m3 x) 4)) i
            = if Z.eq_dec i 4 then on else Z.testbit (m3 x) i).
  { intros i Hi. unfold u8. rewrite testbit_wrap by lia.
    replace (i <? 8) with true by (symmetry; apply Z.ltb_lt; lia).
    simpl andb.
    destruct on; unfold SETBIT, CLRBIT;
      rewrite ?Z.lor_spec, ?Z.land_spec, ?Z.lnot_spec, Z.shiftl_spec by lia;
      destruct (Z.eq_dec i 4) as [-> | Hne]; simpl;
      try (rewrite ?orb_true_r, ?andb_false_r; reflexivity);
      replace (Z.testbit 1 (i - 4)) with false
        by (symmetry; destruct (Z.ltb_spec i 4);
            [apply Z.testbit_neg_r; lia
            | change 1 with (Z.ones 1); apply Z.ones_spec_high; lia]);
      simpl; rewrite ?orb_false_r, ?andb_true_r; reflexivity. }
  pose proof (store_same m t x
                (with_m3 x (if on then SETBIT (m3 x) 4 else CLRBIT (m3 x) 4))
                Hx) as Hy.
  eexists x, _. split; [exact Hx |]. split; [exact Hy |].
  split; [unfold same_except; simpl; repeat split; congruence |].
  split; [cbn [m3 with_m3]; rewrite Hbit by lia; reflexivity |].
  split.
  - intros i Hi Hne. cbn [m3 with_m3]. rewrite Hbit by lia.
    destruct (Z.eq_dec i 4); [contradiction | reflexivity].
  - split; [| intros k Hk; apply store_other; exact Hk].
    unfold GetRailType.
    rewrite (tile_at_Some _ _ _ Hy), (tile_at_Some _ _ _ Hx).
    cbn [mbind result_bind m3 with_m3]. f_equal.
    apply GB_ext; try lia. intros i Hi. rewrite Hbit by lia.
    destruct (Z.eq_dec i 4); [lia | reflexivity].
Qed.

End RailMapMore.

(** ** The tile constructors *)

Section ConstructorFacts.
Import RailMap.
Context `{TW : TileWriters}.

Lemma GB_low x n : 0 <= n -> GB x 0 n = x mod 2 ^ n.
Proof.
  intros Hn. unfold GB. rewrite Z.shiftr_0_r. apply Z.land_ones. exact Hn.
Qed.

Lemma u8_small x : 0 <= x < 2 ^ 8 -> u8 x = x.
Proof. intros H. unfold u8, wrap. apply Z.mod_small. exact H. Qed.

Lemma assign_inv (m m' : Map) (t : TileIndex) (v : Z)
    (assign : Map -> TileIndex -> Z -> result Map) (w : Tile -> Z -> Tile) :
  (forall m0 t0 v0,
     assign m0 t0 v0 = (x ← tile_at m0 t0; Ok (store m0 t0 (w x v0)))) ->
  assign m t v = Ok m' ->
  exists x, m !! t = Some x /\ m' = store m t (w x v).
Proof.
  intros Hdef H. rewrite Hdef in H.
  destruct (bind_Ok _ _ _ H) as (x & Hat & Hok). injection Hok as <-.
  exists x. split; [apply tile_at_Ok, Hat | reflexivity].
Qed.

(** The four assignments that end every constructor. *)
Lemma assign_chain (m0 m' : Map) (t : TileIndex) (v2 v3 v4 v5 : Z) :
  (ma ← assign_m2 m0 t v2;
   mb ← assign_m3 ma t v3;
   mc ← assign_m4 mb t v4;
   assign_m5 mc t v5) = Ok m' ->
  exists x0,
    m0 !! t = Some x0 /\
    m' !! t = Some (with_m5 (with_m4 (with_m3 (with_m2 x0 v2) v3) v4) v5) /\
    (forall k : TileIndex, k <> t -> m' !! k = m0 !! k).
Proof.
  intros H.
  destruct (bind_Ok _ _ _ H) as (ma & Ha & H1).
  destruct (bind_Ok _ _ _ H1) as (mb & Hb & H2).
  destruct (bind_Ok _ _ _ H2) as (mc & Hc & Hd).
  destruct (assign_inv _ _ _ _ assign_m2 with_m2 ltac:(reflexivity) Ha)
    as (x0 & Hx0 & ->).
  destruct (assign_inv _ _ _ _ assign_m3 with_m3 ltac:(reflexivity) Hb)
    as (x1 & Hx1 & ->).
  destruct (assign_inv _ _ _ _ assign_m4 with_m4 ltac:(reflexivity) Hc)
    as (x2 & Hx2 & ->).
  destruct (assign_inv _ _ _ _ assign_m5 with_m5 ltac:(reflexivity) Hd)
    as (x3 & Hx3 & ->).
  rewrite (store_same _ _ _ _ Hx2) in Hx3. injection Hx3 as <-.
  rewrite (store_same _ _ _ _ Hx1) in Hx2. injection Hx2 as <-.
  rewrite (store_same _ _ _ _ Hx0) in Hx1. injection Hx1 as <-.
  exists x0. split; [exact Hx0 |]. split.
  - rewrite !store_store. apply (store_same _ _ _ _ Hx0).
  - intros k Hk. rewrite !store_other by exact Hk. reflexivity.
Qed.

(** Every constructor that returns has gone through the two writers and
    the four assignments. *)
Lemma constructor_inv (m m' : Map) (t : TileIndex) (o : Owner)
    (v2 v3 v4 v5 : Z) :
  (m1 ← SetTileType m t MP_RAILWAY;
   m2 ← SetTileOwner m1 t o;
   ma ← assign_m2 m2 t v2;
   mb ← assign_m3 ma t v3;
   mc ← assign_m4 mb t v4;
   assign_m5 mc t v5) = Ok m' ->
  exists x0,
    m' !! t = Some (with_m5 (with_m4 (with_m3 (with_m2 x0 v2) v3) v4) v5).
Proof.
  intros H.
  destruct (bind_Ok _ _ _ H) as (m1 & _ & H1).
  destruct (bind_Ok _ _ _ H1) as (m2 & _ & H2).
  destruct (assign_chain _ _ _ _ _ _ _ H2) as (x0 & _ & Hy & _).
  exists x0. exact Hy.
Qed.

Lemma land_C0_small (b : Z) : 0 <= b < 64 -> Z.land b 0xC0 = 0.
Proof.
  intros Hb. rewrite <- (Z.land_0_l 0xC0).
  assert (Hhigh : forall i, 6 <= i -> Z.testbit b i = false).
  { intros i Hi. rewrite <- (Z.mod_small b (2 ^ 6)) by lia.
    apply Z.mod_pow2_bits_high. lia. }
  apply land_C0_ext; rewrite Z.bits_0; apply Hhigh; lia.
Qed.

(** X9. A tile made by [MakeRailNormal] with track bits inside the 6-bit
    field and a rail type inside the 4-bit field reads back as made: the
    rail tile type is [RAIL_TYPE_NORMAL], [GetTrackBits] returns the track
    bits, [GetRailType] the rail type, [m2] and [m4] are zero, and the
    signal type accessor fails its assertion. *)
Theorem MakeRailNormal_reads
    (m m' : Map) (t : TileIndex) (o : Owner) (b r : Z) :
  0 <= b < 64 -> 0 <= r < 16 ->
  MakeRailNormal m t o b r = Ok m' ->
  GetTrackBits m' t = Ok b /\
  GetRailType m' t = Ok r /\
  GetSignalType m' t = AssertFail /\
  exists y, m' !! t = Some y /\
    rail_tile_type_bits y = RAIL_TYPE_NORMAL /\ m2 y = 0 /\ m4 y = 0.
Proof.
  intros Hb Hr Hrun. unfold MakeRailNormal in Hrun.
  destruct (constructor_inv _ _ _ _ _ _ _ _ Hrun) as (x0 & Hy).
  pose proof (tile_at_Some _ _ _ Hy) as Hat.
  assert (Hm5 : u8 (Z.lor RAIL_TYPE_NORMAL b) = b)
    by (apply u8_small; lia).
  assert (Hbits : rail_tile_type_bits
                    (with_m5 (with_m4 (with_m3 (with_m2 x0 0) r) 0)
                       (Z.lor RAIL_TYPE_NORMAL b)) = RAIL_TYPE_NORMAL).
  { unfold rail_tile_type_bits. cbn [m5 with_m5]. rewrite Hm5.
    apply land_C0_small. exact Hb. }
  split; [| split; [| split]].
  - unfold GetTrackBits. rewrite Hat. cbn [mbind result_bind m5 with_m5].
    rewrite Hm5, GB_low by lia. f_equal. apply Z.mod_small. exact Hb.
  - unfold GetRailType. rewrite Hat. simpl.
    rewrite u8_small, GB_low by lia. f_equal. apply Z.mod_small. exact Hr.
  - apply (signal_guard_fails m' t _ 0 Hy). rewrite Hbits. discriminate.
  - eexists. split; [exact Hy |]. split; [exact Hbits |].
    split; reflexivity.
Qed.

(** X10. A tile made by [MakeRailDepot] with a direction below 4 and a
    rail type inside the 4-bit field reads back as made: the rail tile type
    is [RAIL_TYPE_DEPOT_WAYPOINT], the subtype [RAIL_SUBTYPE_DEPOT],
    [GetRailDepotDirection] returns the direction, [GetRailType] the rail
    type, and the signal type accessor fails its assertion. *)
Theorem MakeRailDepot_reads
    (m m' : Map) (t : TileIndex) (o : Owner) (d r : Z) :
  0 <= d < 4 -> 0 <= r < 16 ->
  MakeRailDepot m t o d r = Ok m' ->
  GetRailDepotDirection m' t = Ok d /\
  GetRailType m' t = Ok r /\
  GetSignalType m' t = AssertFail /\
  exists y, m' !! t = Some y /\
    rail_tile_type_bits y = RAIL_TYPE_DEPOT_WAYPOINT /\
    rail_subtype_bits y = RAIL_SUBTYPE_DEPOT.
Proof.
  intros Hd Hr Hrun. unfold MakeRailDepot in Hrun.
  destruct (constructor_inv _ _ _ _ _ _ _ _ Hrun) as (x0 & Hy).
  pose proof (tile_at_Some _ _ _ Hy) as Hat.
  assert (Hcases : d = 0 \/ d = 1 \/ d = 2 \/ d = 3) by lia.
  split; [| split; [| split]].
  - unfold GetRailDepotDirection. rewrite Hat.
    destruct Hcases as [-> | [-> | [-> | ->]]]; reflexivity.
  - unfold GetRailType. rewrite Hat. simpl.
    rewrite u8_small, GB_low by lia. f_equal. apply Z.mod_small. exact Hr.
  - apply (signal_guard_fails m' t _ 0 Hy).
    destruct Hcases as [-> | [-> | [-> | ->]]]; discriminate.
  - eexists. split; [exact Hy |].
    destruct Hcases as [-> | [-> | [-> | ->]]]; split; reflexivity.
Qed.

(** X11. A tile made by [MakeRailWaypoint] with an axis of 0 or 1 and a
    rail type inside the 4-bit field reads back as made: the rail tile type
    is [RAIL_TYPE_DEPOT_WAYPOINT], the subtype [RAIL_SUBTYPE_WAYPOINT], the
    waypoint track is the axis and the waypoint bits its single track bit,
    [GetRailType] returns the rail type, [m2] holds the index reduced to 16
    bits, and the signal type accessor fails its assertion. *)
Theorem MakeRailWaypoint_reads
    (m m' : Map) (t : TileIndex) (o : Owner) (a r index : Z) :
  0 <= a <= 1 -> 0 <= r < 16 ->
  MakeRailWaypoint m t o a r index = Ok m' ->
  GetRailWaypointTrack m' t = Ok a /\
  GetRailWaypointBits m' t = Ok (Z.shiftl 1 a) /\
  GetRailType m' t = Ok r /\
  GetSignalType m' t = AssertFail /\
  exists y, m' !! t = Some y /\
    rail_tile_type_bits y = RAIL_TYPE_DEPOT_WAYPOINT /\
    rail_subtype_bits y = RAIL_SUBTYPE_WAYPOINT /\
    m2 y = index mod 2 ^ 16.
Proof.
  intros Ha Hr Hrun. unfold MakeRailWaypoint in Hrun.
  destruct (constructor_inv _ _ _ _ _ _ _ _ Hrun) as (x0 & Hy).
  pose proof (tile_at_Some _ _ _ Hy) as Hat.
  assert (Hcases : a = 0 \/ a = 1) by lia.
  split; [| split; [| split; [| split]]].
  - unfold GetRailWaypointTrack. rewrite Hat.
    destruct Hcases as [-> | ->]; reflexivity.
  - unfold GetRailWaypointBits. rewrite Hat.
    destruct Hcases as [-> | ->]; reflexivity.
  - unfold GetRailType. rewrite Hat. simpl.
    rewrite u8_small, GB_low by lia. f_equal. apply Z.mod_small. exact Hr.
  - apply (signal_guard_fails m' t _ 0 Hy).
    destruct Hcases as [-> | ->]; discriminate.
  - eexists. split; [exact Hy |].
    destruct Hcases as [-> | ->]; repeat split; reflexivity.
Qed.

End ConstructorFacts.

(** ** Worked instances of the further properties of rail tiles *)

Section RailMapMoreExamples.
Import RailMap.

Lemma setter_getter_roundtrip_witness :
  run_getter G_RailTypeOnBridge [mkTile 0x10 0 0 0x51 0 0x01] 0%nat = Ok 5.
Proof.
  apply (setter_getter_roundtrip (TH := example_header)
           S_RailTypeOnBridge G_RailTypeOnBridge
           [mkTile 0x10 0 0 0x21 0 0x01] [mkTile 0x10 0 0 0x51 0 0x01]
           0%nat 5);
    [reflexivity | simpl; lia | reflexivity].
Defined.

Lemma SetSignalType_GetSignalType_witness :
  GetSignalType (TH := example_header) [mkTile 0x10 0 0 0 0x07 0x41] 0%nat
  = Ok SIGTYPE_COMBO.
Proof.
  apply (SetSignalType_GetSignalType (TH := example_header)
           [mkTile 0x10 0 0 0 0x04 0x41] [mkTile 0x10 0 0 0 0x07 0x41]
           0%nat SIGTYPE_COMBO);
    [unfold SIGTYPE_COMBO; lia | reflexivity | reflexivity].
Defined.

Lemma setters_keep_tile_type_witness :
  rail_tile_type_bits (mkTile 0x10 0 0 0 0 0xAA)
  = rail_tile_type_bits (mkTile 0x10 0 0 0 0 0x81).
Proof.
  apply (setters_keep_tile_type (TH := example_header) S_TrackBits
           [mkTile 0x10 0 0 0 0 0x81] [mkTile 0x10 0 0 0 0 0xAA]
           0%nat 0%nat 0x2A);
    [simpl; lia | reflexivity ..].
Defined.


Example SetRailTypeCrossing_destroys_signal_variant :
  let m := [mkTile 0x10 0 0 0 0x04 0x41] in
  GetSignalVariant m 0%nat = Ok SIG_SEMAPHORE /\
  (m' ← SetRailTypeCrossing m 0%nat RAILTYPE_MAGLEV; GetSignalVariant m' 0%nat)
  = Ok SIG_ELECTRIC.
Proof. split; reflexivity. Qed.

Lemma setter_last_write_wins_witness :
  run_setter (TH := example_header) S_SignalVariant
    [mkTile 0x10 0 0 0 0x03 0x41] 0%nat 0
  = Ok [mkTile 0x10 0 0 0 0x03 0x41].
Proof.
  apply (setter_last_write_wins (TH := example_header) S_SignalVariant
           [mkTile 0x10 0 0 0 0x03 0x41] [mkTile 0x10 0 0 0 0x07 0x41]
           [mkTile 0x10 0 0 0 0x03 0x41] 0%nat 1 0);
    [simpl; lia | simpl; lia | reflexivity ..].
Defined.

Lemma custom_waypoint_sprite_bit_witness :
  exists x y : Tile,
    [mkTile 0x10 0 7 0x02 0 0xC4] !! 0%nat = Some x /\
    [mkTile 0x10 0 7 0x12 0 0xC4] !! 0%nat = Some y /\
    same_except F_m3 x y /\
    Z.testbit (m3 y) 4 = true /\
    (forall i, 0 <= i < 8 -> i <> 4 ->
       Z.testbit (m3 y) i = Z.testbit (m3 x) i) /\
    GetRailType [mkTile 0x10 0 7 0x12 0 0xC4] 0%nat
    = GetRailType [mkTile 0x10 0 7 0x02 0 0xC4] 0%nat /\
    (forall k : TileIndex, k <> 0%nat ->
       [mkTile 0x10 0 7 0x12 0 0xC4] !! k
       = [mkTile 0x10 0 7 0x02 0 0xC4] !! k).
Proof.
  apply (custom_waypoint_sprite_bit [mkTile 0x10 0 7 0x02 0 0xC4]
           [mkTile 0x10 0 7 0x12 0 0xC4] 0%nat true).
  reflexivity.
Defined.

Lemma MakeRailNormal_reads_witness :
  let m' := [mkTile 0x15 7 0 RAILTYPE_ELECTRIC 0 TRACK_BIT_CROSS] in
  GetTrackBits m' 0%nat = Ok TRACK_BIT_CROSS /\
  GetRailType m' 0%nat = Ok RAILTYPE_ELECTRIC /\
  GetSignalType (TH := example_header) m' 0%nat = AssertFail /\
  exists y, m' !! 0%nat = Some y /\
    rail_tile_type_bits y = RAIL_TYPE_NORMAL /\ m2 y = 0 /\ m4 y = 0.
Proof.
  apply (MakeRailNormal_reads (TW := example_writers)
           [mkTile 0x45 1 2 3 4 5]
           [mkTile 0x15 7 0 RAILTYPE_ELECTRIC 0 TRACK_BIT_CROSS]
           0%nat 7 TRACK_BIT_CROSS RAILTYPE_ELECTRIC);
    [vm_compute; split; [discriminate | reflexivity]
    | vm_compute; split; [discriminate | reflexivity]
    | reflexivity].
Defined.

Lemma MakeRailDepot_reads_witness :
  let m' := [mkTile 0x15 7 0 RAILTYPE_MONO 0 0xC3] in
  GetRailDepotDirection m' 0%nat = Ok 3 /\
  GetRailType m' 0%nat = Ok RAILTYPE_MONO /\
  GetSignalType (TH := example_header) m' 0%nat = AssertFail /\
  exists y, m' !! 0%nat = Some y /\
    rail_tile_type_bits y = RAIL_TYPE_DEPOT_WAYPOINT /\
    rail_subtype_bits y = RAIL_SUBTYPE_DEPOT.
Proof.
  apply (MakeRailDepot_reads (TW := example_writers)
           [mkTile 0x45 1 2 3 4 5] [mkTile 0x15 7 0 RAILTYPE_MONO 0 0xC3]
           0%nat 7 3 RAILTYPE_MONO);
    [lia | vm_compute; split; [discriminate | reflexivity] | reflexivity].
Defined.

Lemma MakeRailWaypoint_reads_witness :
  let m' := [mkTile 0x15 7 0x2345 RAILTYPE_RAIL 0 0xC5] in
  GetRailWaypointTrack m' 0%nat = Ok 1 /\
  GetRailWaypointBits m' 0%nat = Ok (Z.shiftl 1 1) /\
  GetRailType m' 0%nat = Ok RAILTYPE_RAIL /\
  GetSignalType (TH := example_header) m' 0%nat = AssertFail /\
  exists y, m' !! 0%nat = Some y /\
    rail_tile_type_bits y = RAIL_TYPE_DEPOT_WAYPOINT /\
    rail_subtype_bits y = RAIL_SUBTYPE_WAYPOINT /\
    m2 y = 0x12345 mod 2 ^ 16.
Proof.
  apply (MakeRailWaypoint_reads (TW := example_writers)
           [mkTile 0x45 1 2 3 4 5]
           [mkTile 0x15 7 0x2345 RAILTYPE_RAIL 0 0xC5]
           0%nat 7 1 RAILTYPE_RAIL 0x12345);
    [lia | vm_compute; split; [discriminate | reflexivity] | reflexivity].
Defined.

End RailMapMoreExamples.

(** ** More about road vehicles *)

Section RoadVehMore.
Import RoadVeh.
Context `{VH : VehicleHeader}.

(** X12. [IsRoadVehInDepotStopped] inherits the assertion of
    [IsRoadVehInDepot]: for any other vehicle type it ends in the assertion
    failure; for a road vehicle it returns a value, true exactly when the
    road state is 254 and the status has a bit of [VS_STOPPED] set. *)
Theorem IsRoadVehInDepotStopped_sentinel (v : Vehicle) :
  (type v <> VEH_Road -> IsRoadVehInDepotStopped v = AssertFail) /\
  (type v = VEH_Road ->
   exists b : bool,
     IsRoadVehInDepotStopped v = Ok b /\
     (b = true <->
      u_road_state v = 254 /\ Z.land (vehstatus v) VS_STOPPED <> 0)).
Proof.
  unfold IsRoadVehInDepotStopped, IsRoadVehInDepot. split.
  - intros Hty.
    destruct (Z.eqb_spec (type v) VEH_Road) as [Heq | _];
      [contradiction | reflexivity].
  - intros Hty. rewrite Hty, Z.eqb_refl. simpl.
    eexists. split; [reflexivity |].
    destruct (Z.eqb_spec (u_road_state v) 254) as [Hs | Hs].
    + rewrite negb_true_iff, Z.eqb_neq. tauto.
    + split; [discriminate | tauto].
Qed.

End RoadVehMore.

(** ** More about the Randomizer *)

Section RandomizerMore.
Import Random.

Lemma rotr_spec_range x k : 0 <= Random.rotr_spec x k < 2 ^ 32.
Proof. unfold rotr_spec. apply Z.mod_pos_bound. lia. Qed.

Lemma rotr32_range x k :
  0 <= x < 2 ^ 32 -> 0 < k < 32 -> 0 <= rotr32 x k < 2 ^ 32.
Proof.
  intros Hx Hk. rewrite rotr32_arith by assumption. apply rotr_spec_range.
Qed.

(** A rotation loses nothing: two words with the same rotation are the
    same word. *)
Lemma rotr32_injective x y k :
  0 <= x < 2 ^ 32 -> 0 <= y < 2 ^ 32 -> 0 < k < 32 ->
  rotr32 x k = rotr32 y k -> x = y.
Proof.
  intros Hx Hy Hk. rewrite !rotr32_arith by assumption.
  unfold rotr_spec.
  assert (Hpk : 0 < 2 ^ k) by (apply Z.pow_pos_nonneg; lia).
  assert (Hpr : 0 < 2 ^ (32 - k)) by (apply Z.pow_pos_nonneg; lia).
  assert (Hsplit : 2 ^ 32 = 2 ^ k * 2 ^ (32 - k)).
  { rewrite <- Z.pow_add_r by lia. f_equal. lia. }
  assert (Hparts : forall z, 0 <= z < 2 ^ 32 ->
            0 <= z / 2 ^ k < 2 ^ (32 - k) /\ 0 <= z mod 2 ^ k < 2 ^ k /\
            z = 2 ^ k * (z / 2 ^ k) + z mod 2 ^ k).
  { intros z Hz. split; [| split].
    - split; [apply Z.div_pos; lia |].
      apply Z.div_lt_upper_bound; lia.
    - apply Z.mod_pos_bound. lia.
    - apply Z.div_mod. lia. }
  destruct (Hparts x Hx) as (Hxh & Hxl & Hxe).
  destruct (Hparts y Hy) as (Hyh & Hyl & Hye).
  set (A := 2 ^ (32 - k)) in *. set (P := 2 ^ k) in *.
  set (xh := x / P) in *. set (xl := x mod P) in *.
  set (yh := y / P) in *. set (yl := y mod P) in *.
  assert (Hbx : 0 <= xh + xl * A < 2 ^ 32).
  { assert (xl * A <= (P - 1) * A)
      by (apply Z.mul_le_mono_nonneg_r; lia). nia. }
  assert (Hby : 0 <= yh + yl * A < 2 ^ 32).
  { assert (yl * A <= (P - 1) * A)
      by (apply Z.mul_le_mono_nonneg_r; lia). nia. }
  rewrite !Z.mod_small by assumption.
  intros Heq.
  assert (Hl : xl = yl).
  { destruct (Z.lt_trichotomy xl yl) as [Hlt | [He | Hgt]];
      [exfalso | exact He | exfalso].
    - assert (A * 1 <= A * (yl - xl))
        by (apply Z.mul_le_mono_nonneg_l; lia). lia.
    - assert (A * 1 <= A * (xl - yl))
        by (apply Z.mul_le_mono_nonneg_l; lia). lia. }
  assert (Hh : xh = yh) by (rewrite Hl in Heq; lia).
  rewrite Hxe, Hye, Hl, Hh. reflexivity.
Qed.

Lemma u32_eq_inj a b c :
  0 <= a < 2 ^ 32 -> 0 <= b < 2 ^ 32 -> u32 (a + c) = u32 (b + c) -> a = b.
Proof.
  intros Ha Hb. unfold u32, wrap. intros H.
  assert (Hd : (a + c - (b + c)) mod 2 ^ 32 = 0).
  { rewrite Zminus_mod, H, Z.sub_diag. reflexivity. }
  replace (a + c - (b + c)) with (a - b) in Hd by lia.
  apply Z.mod_divide in Hd; [| lia].
  destruct Hd as [q Hq]. lia.
Qed.

Lemma lxor_cancel_r a b c : Z.lxor a c = Z.lxor b c -> a = b.
Proof.
  intros H. apply (f_equal (fun z => Z.lxor z c)) in H.
  rewrite !Z.lxor_assoc, !Z.lxor_nilpotent, !Z.lxor_0_r in H. exact H.
Qed.

(** X13. [Next] keeps the state words 32-bit values and never merges two
    states: two generators in different 32-bit states are still in
    different states after one call each. *)
Theorem Next_never_merges (r1 r2 : Randomizer) :
  word_state r1 -> word_state r2 ->
  word_state (snd (Next r1)) /\
  (snd (Next r1) = snd (Next r2) -> r1 = r2).
Proof.
  intros [H10 H11] [H20 H21]. split.
  - unfold Next; simpl. split; apply u32_range.
  - destruct r1 as [s1 t1], r2 as [s2 t2]. simpl in *.
    unfold Next. simpl. intros Heq.
    injection Heq as Hs0 Hs1.
    assert (Hs : s1 = s2).
    { apply (rotr32_injective s1 s2 3); try lia.
      apply (u32_eq_inj _ _ (-1)); try (apply rotr32_range; lia).
      exact Hs1. }
    subst s2. f_equal.
    rewrite !u32_add_l in Hs0.
    assert (Hx1 : 0 <= Z.lxor t1 0x1234567F < 2 ^ 32)
      by (apply lxor_u32; lia).
    assert (Hx2 : 0 <= Z.lxor t2 0x1234567F < 2 ^ 32)
      by (apply lxor_u32; lia).
    apply (lxor_cancel_r _ _ 0x1234567F).
    apply (rotr32_injective _ _ 7); try lia.
    apply (u32_eq_inj _ _ (s1 + 1)); try (apply rotr32_range; lia).
    transitivity (u32 (s1 + rotr32 (Z.lxor t1 0x1234567F) 7 + 1));
      [f_equal; lia |].
    rewrite Hs0. f_equal; lia.
Qed.

Lemma Next_never_merges_witness :
  word_state (snd (Next {| state0 := 1; state1 := 2 |})) /\
  (snd (Next {| state0 := 1; state1 := 2 |})
   = snd (Next {| state0 := 1; state1 := 0xFFFFFFFF |}) ->
   {| state0 := 1; state1 := 2 |} = {| state0 := 1; state1 := 0xFFFFFFFF |}).
Proof.
  apply (Next_never_merges {| state0 := 1; state1 := 2 |}
           {| state0 := 1; state1 := 0xFFFFFFFF |});
    unfold word_state; simpl; lia.
Defined.

(** X14. [SetRandomSeed] starts the two generators in the same state for
    exactly two of the 32-bit seeds, 0 and [2^31]; for every other seed the
    states differ. *)
Theorem SetRandomSeed_same_state (g : Globals) (seed : Z) :
  0 <= seed < 2 ^ 32 ->
  (_random (SetRandomSeed g seed) = _interactive_random (SetRandomSeed g seed)
   <-> seed = 0 \/ seed = 2 ^ 31).
Proof.
  intros Hseed. unfold SetRandomSeed, SetSeed. simpl. split.
  - intros Heq. injection Heq as Hs _.
    unfold u32, wrap in Hs.
    pose proof (Z.div_mod (seed * 19088743) (2 ^ 32) ltac:(lia)) as Hdm.
    rewrite <- Hs in Hdm.
    set (q := seed * 19088743 / 2 ^ 32) in *.
    change (2 ^ 32) with 4294967296 in *. change (2 ^ 31) with 2147483648.
    assert (Hq : seed * 9544371 = q * 2147483648) by lia.
    assert (Hinv : seed * (9544371 * 1266146427) = q * 1266146427 * 2147483648)
      by nia.
    lia.
  - intros [-> | ->]; reflexivity.
Qed.

Lemma SetRandomSeed_same_state_witness :
  _random (SetRandomSeed example_state.(globals) (2 ^ 31))
  = _interactive_random (SetRandomSeed example_state.(globals) (2 ^ 31))
  <-> 2 ^ 31 = 0 \/ 2 ^ 31 = 2 ^ 31.
Proof.
  apply (SetRandomSeed_same_state example_state.(globals) (2 ^ 31)). lia.
Defined.

Lemma Next_limit_quotient (r : Randomizer) (limit : Z) :
  0 <= limit < 2 ^ 32 ->
  fst (Next_limit r limit) = fst (Next r) * limit / 2 ^ 32.
Proof.
  intros Hl. pose proof (Next_u32 r) as Hraw.
  unfold Next_limit. destruct (Next r) as [raw r']. simpl in *.
  assert (Hprod : 0 <= raw * limit < 2 ^ 64) by nia.
  rewrite (u64_small raw), (u64_small limit), (u64_small _ Hprod) by lia.
  rewrite Z.shiftr_div_pow2 by lia.
  apply u32_small. split; [apply Z.div_pos; lia |].
  apply Z.div_lt_upper_bound; nia.
Qed.

(** X15. [Next(limit)] grows with the limit: for the same generator a
    larger limit never gives a smaller value. With limit 0 it returns 0 (the
    interval [0, limit) is empty then) and still advances the generator by
    one draw. *)
Theorem Next_limit_monotone (r : Randomizer) (l1 l2 : Z) :
  0 <= l1 <= l2 -> l2 < 2 ^ 32 ->
  fst (Next_limit r l1) <= fst (Next_limit r l2) /\
  fst (Next_limit r 0) = 0 /\
  snd (Next_limit r 0) = snd (Next r).
Proof.
  intros H12 H2. pose proof (Next_u32 r) as Hraw.
  rewrite !Next_limit_quotient by lia.
  split; [| split].
  - apply Z.div_le_mono; [lia | nia].
  - rewrite Z.mul_0_r. reflexivity.
  - unfold Next_limit. destruct (Next r); reflexivity.
Qed.

Lemma Next_limit_monotone_witness :
  fst (Next_limit {| state0 := 0; state1 := 0 |} 10)
  <= fst (Next_limit {| state0 := 0; state1 := 0 |} 1000) /\
  fst (Next_limit {| state0 := 0; state1 := 0 |} 0) = 0 /\
  snd (Next_limit {| state0 := 0; state1 := 0 |} 0)
  = snd (Next {| state0 := 0; state1 := 0 |}).
Proof.
  apply (Next_limit_monotone {| state0 := 0; state1 := 0 |} 10 1000); lia.
Defined.

(** X16. With a power of two as the limit, [Next(limit)] is the raw value
    shifted down: [Next(2^k)] returns the top [k] bits of what [Next()]
    returns. *)
Theorem Next_limit_power_of_two (r : Randomizer) (k : Z) :
  0 <= k < 32 ->
  fst (Next_limit r (2 ^ k)) = Z.shiftr (fst (Next r)) (32 - k).
Proof.
  intros Hk.
  assert (Hp : 0 < 2 ^ k) by (apply Z.pow_pos_nonneg; lia).
  assert (Hlt : 2 ^ k < 2 ^ 32) by (apply Z.pow_lt_mono_r; lia).
  rewrite Next_limit_quotient by lia.
  rewrite Z.shiftr_div_pow2 by lia.
  replace (2 ^ 32) with (2 ^ k * 2 ^ (32 - k))
    by (rewrite <- Z.pow_add_r by lia; f_equal; lia).
  rewrite Z.mul_comm.
  apply Z.div_mul_cancel_l; [| lia].
  apply Z.pow_nonzero; lia.
Qed.

Lemma Next_limit_power_of_two_witness :
  fst (Next_limit {| state0 := 0; state1 := 0 |} (2 ^ 8))
  = Z.shiftr (fst (Next {| state0 := 0; state1 := 0 |})) (32 - 8).
Proof.
  apply (Next_limit_power_of_two {| state0 := 0; state1 := 0 |} 8). lia.
Defined.

End RandomizerMore.

(** ** More about filling a buffer *)

Section RandomBytesMore.
Import Random.
Variable E : Externals.

(** What one pass through the loop body does. *)
Lemma fallback_body_effect (i : Z) (s : State) (b : Buffer) :
  let ir := _interactive_random (globals s) in
  clock_reads (fst (fallback_body E i s b)) = S (clock_reads s) /\
  _interactive_random (globals (fst (fallback_body E i s b)))
  = snd (Next ir) /\
  _random (globals (fst (fallback_body E i s b))) = _random (globals s) /\
  snd (fallback_body E i s b)
  = buf_write b i
      (SimpleHash64 E
         (Z.lxor (u64 (steady_clock_now E (clock_reads s))) (fst (Next ir)))).
Proof. repeat split. Qed.

Lemma fallback_loop_keeps_random (fuel : nat) :
  forall (size i : Z) (s : State) (b : Buffer),
    _random (globals (outcome_state (fallback_loop E fuel size i s b)))
    = _random (globals s).
Proof.
  induction fuel as [| fuel IH]; intros size i s b.
  - rewrite fallback_loop_0. destruct (i <? size); reflexivity.
  - rewrite fallback_loop_S. destruct (i <? size); [| reflexivity].
    rewrite IH. apply (fallback_body_effect i s b).
Qed.

(** The loop, pass by pass: the clock is read and the UI generator drawn
    once per byte, byte [i + j] receives the hash of reading [j] xor draw
    [j], and nothing outside [i .. size - 1] is stored. *)
Lemma fallback_loop_exact (n : nat) :
  forall (fuel : nat) (size i : Z) (s : State) (b : Buffer),
    0 <= i <= size -> size < 2 ^ 32 ->
    n = Z.to_nat (size - i) -> (n <= fuel)%nat ->
    exists s' b',
      fallback_loop E fuel size i s b = Returned s' b' /\
      clock_reads s' = (clock_reads s + n)%nat /\
      _interactive_random (globals s')
      = advance n (_interactive_random (globals s)) /\
      (forall j : nat, (j < n)%nat ->
         b' (i + Z.of_nat j)
         = Some (u8 (SimpleHash64 E
                       (Z.lxor
                          (u64 (steady_clock_now E (clock_reads s + j)%nat))
                          (draw j (_interactive_random (globals s))))))) /\
      (forall k, k < i \/ size <= k -> b' k = b k).
Proof.
  induction n as [| n IH]; intros fuel size i s b Hi Hsize Hn Hfuel.
  - assert (i = size) by lia. subst i.
    exists s, b. split.
    + destruct fuel; [rewrite fallback_loop_0 | rewrite fallback_loop_S];
        rewrite Z.ltb_irrefl; reflexivity.
    + split; [lia |]. split; [reflexivity |].
      split; [intros j Hj; lia | auto].
  - assert (Hlt : i < size) by lia.
    destruct fuel as [| fuel]; [lia |]. rewrite fallback_loop_S.
    replace (i <? size) with true by (symmetry; apply Z.ltb_lt; exact Hlt).
    destruct (fallback_body_effect i s b) as (Hclk & Hir & _ & Hbuf).
    rewrite u32_small by lia.
    destruct (IH fuel size (i + 1) (fst (fallback_body E i s b))
                (snd (fallback_body E i s b)))
      as (s' & b' & Hrun & Hclk' & Hir' & Hbytes & Hout); try lia.
    exists s', b'. split; [exact Hrun |].
    split; [rewrite Hclk', Hclk; lia |].
    split; [rewrite Hir', Hir; reflexivity |].
    split.
    + intros [| j] Hj.
      * rewrite Z.add_0_r, Nat.add_0_r.
        rewrite Hout by lia. rewrite Hbuf. unfold buf_write.
        rewrite Z.eqb_refl. reflexivity.
      * replace (i + Z.of_nat (S j)) with (i + 1 + Z.of_nat j) by lia.
        rewrite Hbytes by lia. rewrite Hclk, Hir.
        replace (S (clock_reads s) + j)%nat with (clock_reads s + S j)%nat
          by lia.
        reflexivity.
    + intros k Hk. rewrite Hout by lia. rewrite Hbuf. unfold buf_write.
      destruct (Z.eqb_spec k i); [lia | reflexivity].
Qed.

(** X17. The gameplay generator [_random] is never touched: after
    [RandomBytesWithFallback], whichever branch it took and whether or not
    it has finished, [_random] is what it was. When the platform source
    delivers, the function returns with the whole process state unchanged. *)
Theorem RandomBytesWithFallback_keeps_random
    (p : Platform) (o : OsCall) (fuel : nat) (size : Z) (s : State) :
  let r := RandomBytesWithFallback E p o fuel size s in
  _random (globals (outcome_state r)) = _random (globals s) /\
  (fst (crypto_source p o size unwritten) = true ->
   r = Returned s (snd (crypto_source p o size unwritten))).
Proof.
  unfold RandomBytesWithFallback.
  destruct (crypto_source p o size unwritten) as [done b].
  destruct done; cbn [fst snd].
  - split; [reflexivity | intros _; reflexivity].
  - split; [| discriminate].
    cbn [exchange]. rewrite fallback_loop_keeps_random. reflexivity.
Qed.

(** X18. When the platform source does not deliver and the buffer is
    shorter than [2^32], the fallback returns after reading the clock and
    drawing from [_interactive_random] exactly once per byte, in order:
    byte [j] is the low byte of the hash of clock reading [j] xor draw
    [j]. *)
Theorem RandomBytesWithFallback_fallback_bytes
    (p : Platform) (o : OsCall) (fuel : nat) (size : Z) (s : State) :
  fst (crypto_source p o size unwritten) = false ->
  0 <= size < 2 ^ 32 -> (Z.to_nat size <= fuel)%nat ->
  exists s' b',
    RandomBytesWithFallback E p o fuel size s = Returned s' b' /\
    clock_reads s' = (clock_reads s + Z.to_nat size)%nat /\
    _interactive_random (globals s')
    = advance (Z.to_nat size) (_interactive_random (globals s)) /\
    (forall j : nat, (j < Z.to_nat size)%nat ->
       b' (Z.of_nat j)
       = Some (u8 (SimpleHash64 E
                     (Z.lxor
                        (u64 (steady_clock_now E (clock_reads s + j)%nat))
                        (draw j (_interactive_random (globals s))))))).
Proof.
  intros Hsrc Hsize Hfuel. unfold RandomBytesWithFallback.
  destruct (crypto_source p o size unwritten) as [done b].
  cbn [fst] in Hsrc. subst done. cbn [exchange].
  destruct (fallback_loop_exact (Z.to_nat (size - 0)) fuel size 0
              (DEBUG_misc (if warned_once s then 1 else 0) fallback_message
                 {| globals := globals s; warned_once := true;
                    debug_log := debug_log s;
                    clock_reads := clock_reads s |}) b)
    as (s' & b' & Hrun & Hclk & Hir & Hbytes & _); try lia.
  rewrite Z.sub_0_r in *.
  exists s', b'. split; [exact Hrun |].
  split; [exact Hclk |]. split; [exact Hir |].
  intros j Hj. specialize (Hbytes j Hj). rewrite Z.add_0_l in Hbytes.
  exact Hbytes.
Qed.

Lemma crypto_source_within (p : Platform) (o : OsCall) (size k : Z) :
  0 <= size < 2 ^ 32 -> (p = Glibc -> os_res o <= size) ->
  k < 0 \/ size <= k ->
  snd (crypto_source p o size unwritten) k = None.
Proof.
  intros Hsize Hres Hk.
  assert (Hw : forall n, n <= size -> os_write o n unwritten k = None).
  { intros n Hn. unfold os_write, unwritten.
    replace ((0 <=? k) && (k <? n)) with false; [reflexivity |].
    symmetry. apply andb_false_iff.
    destruct Hk; [left; apply Z.leb_gt | right; apply Z.ltb_ge]; lia. }
  destruct p; simpl.
  - destruct (0 <=? os_res o); simpl; [| reflexivity].
    apply Hw. rewrite u32_small; lia.
  - apply Hw. lia.
  - specialize (Hres eq_refl).
    destruct (0 <? os_res o); simpl;
      destruct (u64 (os_res o) =? size); simpl;
      try reflexivity; apply Hw; exact Hres.
  - destruct (js_crypto o); simpl; [apply Hw; lia | reflexivity].
  - reflexivity.
Qed.

(** X19. For a buffer shorter than [2^32] the function stays inside the
    span: it returns with every byte of the buffer written and no byte
    before or after it touched, on every platform branch; on glibc as long
    as [getrandom] reports no more bytes than were asked for, and in the
    browser for a request of at most 65536 bytes, the most it accepts. *)
Theorem RandomBytesWithFallback_within_span
    (p : Platform) (o : OsCall) (fuel : nat) (size : Z) (s : State) :
  0 <= size < 2 ^ 32 -> (p = Glibc -> os_res o <= size) ->
  (p = Emscripten -> size <= 65536) ->
  (Z.to_nat size <= fuel)%nat ->
  exists s' b',
    RandomBytesWithFallback E p o fuel size s = Returned s' b' /\
    (forall k, 0 <= k < size -> written b' k) /\
    (forall k, k < 0 \/ size <= k -> b' k = None).
Proof.
  intros Hsize Hres _ Hfuel.
  destruct (RandomBytesWithFallback_fills E p o fuel size s Hsize Hfuel)
    as (s' & b' & Hrun & Hall).
  exists s', b'. split; [exact Hrun |]. split; [exact Hall |].
  intros k Hk.
  pose proof (crypto_source_within p o size k Hsize Hres Hk) as Hsrc.
  unfold RandomBytesWithFallback in Hrun.
  destruct (crypto_source p o size unwritten) as [done b].
  cbn [snd] in Hsrc. destruct done.
  - injection Hrun as _ <-. exact Hsrc.
  - cbn [exchange] in Hrun.
    match type of Hrun with
    | fallback_loop E fuel size 0 ?s2 b = _ =>
        destruct (fallback_loop_exact (Z.to_nat (size - 0)) fuel size 0 s2 b)
          as (s1 & b1 & Hrun1 & _ & _ & _ & Hout); try lia
    end.
    rewrite Hrun1 in Hrun. injection Hrun as _ <-.
    rewrite Hout by lia. exact Hsrc.
Qed.

(** X20. A request for no bytes on the glibc branch never returns early:
    [getrandom] cannot report a positive count, so the call takes the
    fallback, sets the flag and logs the warning (at level 0 the first
    time), although there is nothing to fill and nothing is written. *)
Theorem empty_buffer_on_glibc_warns (o : OsCall) (fuel : nat) (s : State) :
  os_res o <= 0 ->
  exists s' b',
    RandomBytesWithFallback E Glibc o fuel 0 s = Returned s' b' /\
    warned_once s' = true /\
    debug_log s'
    = debug_log s ++ [(if warned_once s then 1 else 0, fallback_message)] /\
    globals s' = globals s /\
    (forall k, b' k = None).
Proof.
  intros Hres. unfold RandomBytesWithFallback. cbn [crypto_source].
  replace (0 <? os_res o) with false by (symmetry; apply Z.ltb_ge; lia).
  cbn [andb exchange].
  eexists _, _. split.
  - destruct fuel; [rewrite fallback_loop_0 | rewrite fallback_loop_S];
      reflexivity.
  - repeat split.
Qed.

(** X22. The debug wrappers draw what the generator draws: [DoRandom]
    returns the value of [_random.Next()] and [DoRandomRange] the value of
    [_random.Next(limit)], below a positive limit; both advance [_random] by
    one draw, leave [_interactive_random] alone, and append one message at
    level 0 exactly when the game is networked and either is not the server
    or has an active first client. *)
Theorem DoRandomRange_draws
    (env : DebugEnv) (limit line : Z) (file : string) (s : DebugState) :
  let g := dbg_globals s in
  let r := DoRandomRange env limit line file s in
  fst (DoRandom env line file s) = fst (Next (_random g)) /\
  fst r = fst (Next_limit (_random g) limit) /\
  snd r = snd (DoRandom env line file s) /\
  _random (dbg_globals (snd r)) = snd (Next (_random g)) /\
  _interactive_random (dbg_globals (snd r)) = _interactive_random g /\
  (0 < limit < 2 ^ 32 -> 0 <= fst r < limit) /\
  random_log (snd r)
  = random_log s ++
    (if _networking env &&
        (negb (_network_server env) ||
         match client0_inactive env with
         | Some inactive => negb inactive
         | None => false
         end)
     then [ {| rl_level := 0; rl_date := hex_date env;
               rl_frame := _frame_counter env;
               rl_company := _current_company env mod 2 ^ 8;
               rl_file := file; rl_line := line |} ]
     else []).
Proof.
  intros g r.
  assert (Hcond : random_is_logged env
                  = _networking env &&
                    (negb (_network_server env) ||
                     match client0_inactive env with
                     | Some inactive => negb inactive
                     | None => false
                     end)).
  { unfold random_is_logged.
    destruct (_networking env), (_network_server env); reflexivity. }
  rewrite <- Hcond.
  assert (Hr : r = (fst (Next_limit (_random g) limit),
                    snd (DoRandom env line file s))).
  { subst r g. unfold DoRandomRange, DoRandom, Next_limit.
    destruct (random_is_logged env); reflexivity. }
  assert (Hrange : 0 < limit < 2 ^ 32 ->
                   0 <= fst (Next_limit (_random g) limit) < limit).
  { intros Hl. rewrite Next_limit_quotient by lia.
    pose proof (Next_u32 (_random g)) as Hraw.
    split; [apply Z.div_pos; lia | apply Z.div_lt_upper_bound; nia]. }
  rewrite Hr. cbn [fst snd]. subst g. unfold DoRandom.
  destruct (random_is_logged env); simpl; rewrite ?app_nil_r;
    (split; [reflexivity |]); (split; [reflexivity |]);
    (split; [reflexivity |]); (split; [reflexivity |]);
    (split; [reflexivity |]); (split; [exact Hrange | reflexivity]).
Qed.

End RandomBytesMore.

Section RandomBytesMoreExamples.
Import Random.

Lemma RandomBytesWithFallback_fallback_bytes_witness :
  let o := {| os_res := -1; os_bytes := fun _ => 0; js_crypto := false |} in
  exists s' b',
    RandomBytesWithFallback example_externals Glibc o 2 2 example_state
    = Returned s' b' /\
    clock_reads s' = (clock_reads example_state + Z.to_nat 2)%nat /\
    _interactive_random (globals s')
    = advance (Z.to_nat 2) (_interactive_random (globals example_state)) /\
    (forall j : nat, (j < Z.to_nat 2)%nat ->
       b' (Z.of_nat j)
       = Some (u8 (SimpleHash64 example_externals
                     (Z.lxor
                        (u64 (steady_clock_now example_externals
                                (clock_reads example_state + j)%nat))
                        (draw j (_interactive_random
                                   (globals example_state))))))).
Proof.
  intros o.
  apply (RandomBytesWithFallback_fallback_bytes example_externals Glibc o
           2%nat 2 example_state);
    [reflexivity | lia | simpl; lia].
Defined.

Lemma RandomBytesWithFallback_within_span_witness :
  let o := {| os_res := 1; os_bytes := fun k => 0xB0 + k;
              js_crypto := false |} in
  exists s' b',
    RandomBytesWithFallback example_externals Glibc o 2 2 example_state
    = Returned s' b' /\
    (forall k, 0 <= k < 2 -> written b' k) /\
    (forall k, k < 0 \/ 2 <= k -> b' k = None).
Proof.
  intros o.
  apply (RandomBytesWithFallback_within_span example_externals Glibc o
           2%nat 2 example_state);
    [lia | intros _; simpl; lia | intros _; lia | simpl; lia].
Defined.

Lemma empty_buffer_on_glibc_warns_witness :
  let o := {| os_res := 0; os_bytes := fun _ => 0; js_crypto := false |} in
  exists s' b',
    RandomBytesWithFallback example_externals Glibc o 0 0 example_state
    = Returned s' b' /\
    warned_once s' = true /\
    debug_log s'
    = debug_log example_state ++
      [(if warned_once example_state then 1 else 0, fallback_message)] /\
    globals s' = globals example_state /\
    (forall k, b' k = None).
Proof.
  intros o.
  apply (empty_buffer_on_glibc_warns example_externals o 0%nat example_state).
  simpl. lia.
Defined.

Example empty_buffer_on_windows_is_silent :
  RandomBytesWithFallback example_externals Windows
    {| os_res := 0; os_bytes := fun _ => 0; js_crypto := false |}
    0 0 example_state
  = Returned example_state
      (os_write {| os_res := 0; os_bytes := fun _ => 0; js_crypto := false |}
         0 unwritten).
Proof. reflexivity. Qed.

Lemma interleaved_full_detail_once_witness :
  (full_detail
     (snd (interleave [0; 1; 1; 0; 2; 2]%nat (replicate 3 AtExchange)
             example_state)) <= 1)%nat.
Proof.
  apply (interleaved_full_detail_once [0; 1; 1; 0; 2; 2]%nat 3 example_state).
  split; reflexivity.
Defined.

Example DoRandom_on_a_client :
  let env := {| _networking := true; _network_server := false;
                client0_inactive := None; hex_date := "0007a3";
                _frame_counter := 0x1F; _current_company := 0x102 |} in
  let s := {| dbg_globals := globals example_state; random_log := [] |} in
  random_log (snd (DoRandomRange env 6 42 "town_cmd.cpp" s))
  = [ {| rl_level := 0; rl_date := "0007a3"; rl_frame := 0x1F;
         rl_company := 2; rl_file := "town_cmd.cpp"; rl_line := 42 |} ] /\
  fst (DoRandomRange env 6 42 "town_cmd.cpp" s)
  = fst (Next_limit {| state0 := 1; state1 := 1 |} 6).
Proof. split; reflexivity. Qed.

End RandomBytesMoreExamples.

(** ** Setters in either order *)

Section SetterOrder.
Import RailMap.
Context `{TH : TileHeader}.

Lemma SB_commute_byte x s n d s' n' d' :
  0 <= s -> 0 <= n -> 0 <= s' -> 0 <= n' ->
  s + n <= s' \/ s' + n' <= s ->
  u8 (SB (u8 (SB x s n d)) s' n' d') = u8 (SB (u8 (SB x s' n' d')) s n d).
Proof.
  intros Hs Hn Hs' Hn' Hapart. apply Z.bits_inj'. intros i Hi.
  rewrite !testbit_u8_SB by lia.
  destruct (i <? 8); simpl; [| reflexivity].
  destruct (Z.leb_spec s i), (Z.ltb_spec i (s + n)),
           (Z.leb_spec s' i), (Z.ltb_spec i (s' + n'));
    simpl; try reflexivity; lia.
Qed.

(** X23. Two setters that cannot meet, called with values that fit
    their fields, can be called in either order: on different tiles, on
    different bytes of a tile, or on bit ranges of one byte that do not
    overlap, both orders leave the same map. *)
Theorem setters_commute
    (s1 s2 : Setter) (m ma mab mb mba : Map) (t1 t2 : TileIndex)
    (v1 v2 : Z) :
  0 <= v1 < 2 ^ snd (setter_range s1) ->
  0 <= v2 < 2 ^ snd (setter_range s2) ->
  t1 <> t2 \/ setters_apart s1 s2 ->
  run_setter s1 m t1 v1 = Ok ma -> run_setter s2 ma t2 v2 = Ok mab ->
  run_setter s2 m t2 v2 = Ok mb -> run_setter s1 mb t1 v1 = Ok mba ->
  mab = mba.
Proof.
  intros _ _ Hcase H1 H12 H2 H21.
  destruct (run_setter_Ok s1 m ma t1 v1 H1) as (x1 & Hx1 & ->).
  destruct (run_setter_Ok s2 _ mab t2 v2 H12) as (y2 & Hy2 & ->).
  destruct (run_setter_Ok s2 m mb t2 v2 H2) as (x2 & Hx2 & ->).
  destruct (run_setter_Ok s1 _ mba t1 v1 H21) as (y1 & Hy1 & ->).
  destruct (decide (t1 = t2)) as [<- | Hne].
  - destruct Hcase as [Hk | Hap]; [contradiction |].
    rewrite (store_same m t1 x1 _ Hx1) in Hy2. injection Hy2 as <-.
    rewrite (store_same m t1 x2 _ Hx2) in Hy1. injection Hy1 as <-.
    rewrite Hx1 in Hx2. injection Hx2 as <-.
    rewrite !store_store. f_equal.
    destruct s1, s2; unfold setters_apart in Hap; simpl in Hap;
      try (exfalso; destruct Hap as [Hf | [Hr | Hr]]; [congruence | lia | lia]);
      simpl; unfold with_m3, with_m4, with_m5; simpl;
      try reflexivity;
      rewrite SB_commute_byte by lia; reflexivity.
  - rewrite store_other in Hy2 by congruence.
    rewrite store_other in Hy1 by congruence.
    rewrite Hx2 in Hy2. injection Hy2 as <-.
    rewrite Hx1 in Hy1. injection Hy1 as <-.
    unfold store. apply list_insert_insert_ne. congruence.
Qed.

End SetterOrder.

Section SetterOrderExamples.
Import RailMap.

Lemma setters_commute_witness :
  [mkTile 0x10 0 0 0x53 0 0x01] = [mkTile 0x10 0 0 0x53 0 0x01].
Proof.
  apply (setters_commute (TH := example_header)
           S_RailType S_RailTypeOnBridge
           [mkTile 0x10 0 0 0x21 0 0x01]
           [mkTile 0x10 0 0 0x23 0 0x01] [mkTile 0x10 0 0 0x53 0 0x01]
           [mkTile 0x10 0 0 0x51 0 0x01] [mkTile 0x10 0 0 0x53 0 0x01]
           0%nat 0%nat 3 5);
    [simpl; lia | simpl; lia | right; right; left; simpl; lia
    | reflexivity ..].
Defined.

Example crossing_and_signal_type_do_not_commute :
  let m := [mkTile 0x10 0 0 0 0x00 0x41] in
  (ma ← SetRailTypeCrossing m 0%nat 3;
   SetSignalType (TH := example_header) ma 0%nat 0)
  = Ok [mkTile 0x10 0 0 0 0x00 0x41] /\
  (mb ← SetSignalType (TH := example_header) m 0%nat 0;
   SetRailTypeCrossing mb 0%nat 3)
  = Ok [mkTile 0x10 0 0 0 0x03 0x41].
Proof. split; reflexivity. Qed.

End SetterOrderExamples.
